(** * netpump-go: tunnel transport and multiplexing bridge

    A shallow embedding of the Go sources
      - private/client/client.go  (the Initiator: [dialThroughTunnel],
        [handleLocalWebSocket], [wsAdapter])
      - private/server/server.go  (the Acceptor: [handleWebSocket],
        [handleStream], [wsAdapter])
    together with the properties of the tunnel control protocol, the session
    bookkeeping, the websocket adapter and the relay that are established
    about them. *)

From Stdlib Require Import List ZArith Lia Bool Arith String.
From Stdlib.Strings Require Import Byte.
Import ListNotations.

(* ===================================================================== *)
(** * Go values used by the program *)
(* ===================================================================== *)

Module Go.

(** A Go [byte]; a Go [string] and a [[]byte] are both byte sequences, and
    the conversions [[]byte(s)] and [string(b)] are the identity on them. *)
Definition byte := Byte.byte.
Definition gostring := list byte.

(** [len(x)] as a Go [int]. *)
Definition len {A : Type} (x : list A) : Z := Z.of_nat (List.length x).

(** The conversion [byte(n)] of an [int]: the low eight bits. *)
Definition byte_of_int (n : Z) : byte :=
  match Byte.of_N (Z.to_N (n mod 256)) with
  | Some b => b
  | None => x00
  end.

(** The conversion [int(b)] of a [byte]. *)
Definition int_of_byte (b : byte) : Z := Z.of_N (Byte.to_N b).

(** Errors. The program compares errors with [io.EOF] only; every other
    error is carried around, logged or wrapped by [fmt.Errorf]. *)
Inductive error : Type :=
| io_EOF
| io_ErrUnexpectedEOF
| context_Canceled
| context_DeadlineExceeded
| lib_error (what : string)                  (* yamux, net, websocket *)
| Errorf (msg : string)
| Errorf_s (msg : string) (arg : list Byte.byte) (* [fmt.Errorf("... %s", s)] *)
| Errorf_w (msg : string) (wrapped : error). (* [fmt.Errorf("...: %w", e)] *)

Definition is_EOF (e : error) : bool :=
  match e with io_EOF => true | _ => false end.

(** The outcome of a call that may fail or may never return. *)
Inductive res (A : Type) : Type :=
| Ok (a : A)
| Err (e : error)
| Never.
Arguments Ok {A} a.
Arguments Err {A} e.
Arguments Never {A}.

(** The inbound half of a [net.Conn] holding a byte stream (a yamux
    stream): the data arrives in segments, one segment being what one
    [Read] with a large enough buffer returns; once the segments are used
    up [Read] returns [(0, e)] when [tail = Some e] (the peer closed or the
    session died) and never returns when [tail = None]. *)
Record Reader : Type := mkReader {
  segs : list (list byte);
  tail : option error
}.

(** [io.ReadAtLeast(r, buf, min)] with [len(buf) = min], after [acc] has
    been read into [buf]:
<<
    for n < min && err == nil { nn, err = r.Read(buf[n:]); n += nn }
    if n >= min { err = nil } else if n > 0 && err == EOF { err = ErrUnexpectedEOF }
>>
*)
Fixpoint ReadAtLeast (sg : list (list byte)) (tl : option error)
         (min : nat) (acc : list byte) : res (list byte) * Reader :=
  if (min <=? List.length acc)%nat then (Ok acc, mkReader sg tl)
  else
    match sg with
    | [] =>
        match tl with
        | None => (Never, mkReader [] tl)
        | Some e =>
            if ((0 <? List.length acc)%nat && is_EOF e)%bool
            then (Err io_ErrUnexpectedEOF, mkReader [] tl)
            else (Err e, mkReader [] tl)
        end
    | s :: rest =>
        let room := (min - List.length acc)%nat in
        if (List.length s <=? room)%nat
        then ReadAtLeast rest tl min (acc ++ s)
        else (Ok (acc ++ firstn room s), mkReader (skipn room s :: rest) tl)
    end.

(** [io.ReadFull(r, buf)] with [len(buf) = n]. *)
Definition ReadFull (r : Reader) (n : nat) : res (list byte) * Reader :=
  ReadAtLeast (segs r) (tail r) n [].

End Go.

Import Go.

Open Scope string_scope.
Open Scope list_scope.

(* ===================================================================== *)
(** * The calls a handler makes *)
(* ===================================================================== *)

Inductive level := LInfo | LError.

(** The effects of the two handshake functions, in program order. A
    [StreamWrite] carries the bytes handed to [stream.Write] and the error
    that call returned. *)
Inductive call : Type :=
| Log (l : level) (msg : string)
| StreamWrite (p : list byte) (r : option error)
| StreamClose
| DialTimeout (network : string) (target : gostring) (seconds : Z)
| ConnClose
| Sleep (seconds : Z)                 (* [<-time.After(1 * time.Second)] *)
| SessionOpen.

(** A call without the value it returned. *)
Definition forget (c : call) : call :=
  match c with
  | StreamWrite p _ => StreamWrite p None
  | _ => c
  end.

(** The byte slices handed to [stream.Write], in order. *)
Fixpoint written (t : list call) : list (list byte) :=
  match t with
  | [] => []
  | StreamWrite p _ :: t' => p :: written t'
  | _ :: t' => written t'
  end.

(* ===================================================================== *)
(** * Tunnel control protocol, Acceptor side (server.go) *)
(* ===================================================================== *)

Module Server.

Definition conn := nat.

Inductive outcome : Type :=
| Returned                                   (* the function returned *)
| Blocked                                    (* a read never returned *)
| Relaying (c : conn) (stream : Reader).     (* reached "Relay data" *)

Section HandleStream.

(** [net.DialTimeout(network, target, d)]. *)
Variable net_DialTimeout : string -> gostring -> Z -> conn + error.
(** What [stream.Write(p)] returns. *)
Variable stream_Write : list byte -> option error.

(** [handleStream] (lines 100-132), up to the start of the relay: the
    request is one length byte and that many address bytes; the target
    is dialled and one status byte is written. [defer stream.Close()]
    runs on each return. *)
Definition handleStream (stream : Reader) : list call * outcome :=
  match ReadFull stream 1 with
  | (Never, _) => ([], Blocked)
  | (Err _, _) =>
      ([Log LError "failed to read address length"; StreamClose], Returned)
  | (Ok lenBuf, stream1) =>
      let addrLen := int_of_byte (nth 0 lenBuf x00) in
      match ReadFull stream1 (Z.to_nat addrLen) with
      | (Never, _) => ([], Blocked)
      | (Err _, _) =>
          ([Log LError "failed to read address"; StreamClose], Returned)
      | (Ok addrBuf, stream2) =>
          let target : gostring := addrBuf in
          match net_DialTimeout "tcp" target 10 with
          | inr _ =>
              ([DialTimeout "tcp" target 10;
                Log LError "connection failed";
                StreamWrite [x01] (stream_Write [x01]);
                StreamClose], Returned)
          | inl c =>
              ([DialTimeout "tcp" target 10;
                StreamWrite [x00] (stream_Write [x00]);
                Log LInfo "proxying"], Relaying c stream2)
          end
      end
  end.

End HandleStream.

End Server.

(* ===================================================================== *)
(** * Tunnel control protocol, Initiator side (client.go) *)
(* ===================================================================== *)

Module Client.

Definition session := nat.

(** A yamux stream as [dialThroughTunnel] sees it: what it will deliver
    and what its [Write] returns. *)
Record Stream : Type := mkStream {
  inbound : Reader;
  Write_result : list byte -> option error
}.

(** Lines 269-270:
<<
    header := []byte{byte(len(addr))}
    header = append(header, []byte(addr)...)
>>
*)
Definition header (addr : gostring) : list byte :=
  [byte_of_int (len addr)] ++ addr.

(** How the wait loop of lines 241-262 ends. *)
Inductive waited : Type :=
| Opened (s : Stream)          (* [break] with a stream *)
| Gave_up (e : error)          (* a [return nil, ...] inside the loop *)
| Exhausted.                   (* [retries] reached 30, [stream == nil] *)

Section Dial.

(** [c.muxSession] as read under [c.muxMu] in iteration [retries]. *)
Variable muxSession_at : nat -> option session.
(** [c.muxSession.Open()]. *)
Variable session_Open : session -> Stream + error.
(** In the [select] of iteration [retries]: [Some (ctx.Err())] when
    [ctx.Done()] is chosen, [None] when the one-second timer is. *)
Variable ctx_Done : nat -> option error.

(** Iteration [i] finds no session and its timer fires first. *)
Definition idle (i : nat) : Prop :=
  muxSession_at i = None /\ ctx_Done i = None.

(** [for retries := 0; retries < 30; retries++ { ... }], with [left]
    the number of iterations still allowed, [left = 30 - retries]. *)
Fixpoint wait_loop (left retries : nat) : list call * waited :=
  match left with
  | O => ([], Exhausted)
  | S left' =>
      match muxSession_at retries with
      | Some s =>
          match session_Open s with
          | inl stream => ([SessionOpen], Opened stream)
          | inr err =>
              ([SessionOpen],
               Gave_up (Errorf_w "failed to open stream" err))
          end
      | None =>
          let note :=
            if (retries =? 0)%nat
            then [Log LInfo "waiting for browser connection..."]
            else [] in
          match ctx_Done retries with
          | Some e => (note, Gave_up e)
          | None =>
              let (t, w) := wait_loop left' (S retries) in
              (note ++ Sleep 1 :: t, w)
          end
      end
  end.

(** [dialThroughTunnel] (lines 237-290). [Ok r] is [return stream, nil],
    with [r] what the stream still has to deliver. *)
Definition dialThroughTunnel (addr : gostring) : list call * res Reader :=
  match wait_loop 30 0 with
  | (t, Gave_up e) => (t, Err e)
  | (t, Exhausted) =>
      (t, Err (Errorf "timeout waiting for browser connection"))
  | (t, Opened stream) =>
      let wr := Write_result stream (header addr) in
      match wr with
      | Some err =>
          (t ++ [StreamWrite (header addr) wr; StreamClose],
           Err (Errorf_w "failed to send target" err))
      | None =>
          match ReadFull (inbound stream) 1 with
          | (Never, _) => (t ++ [StreamWrite (header addr) wr], Never)
          | (Err err, _) =>
              (t ++ [StreamWrite (header addr) wr; StreamClose],
               Err (Errorf_w "failed to read status" err))
          | (Ok status, rest) =>
              if Byte.eqb (nth 0 status x00) x00
              then (t ++ [StreamWrite (header addr) wr;
                          Log LInfo "connected"], Ok rest)
              else (t ++ [StreamWrite (header addr) wr; StreamClose],
                    Err (Errorf_s "server failed to connect to %s" addr))
          end
      end
  end.

End Dial.

(** Seconds spent in [time.After] waits. *)
Fixpoint slept (t : list call) : Z :=
  match t with
  | [] => 0
  | Sleep d :: t' => d + slept t'
  | _ :: t' => slept t'
  end.

(** How often [c.muxSession.Open()] was called. *)
Definition opens_called (t : list call) : nat :=
  List.length
    (filter (fun c => match c with SessionOpen => true | _ => false end) t).

End Client.

(* ===================================================================== *)
(** * Session bookkeeping *)
(* ===================================================================== *)

Module Sessions.

(** A [*websocket.Conn], named by the order of its upgrade. The yamux
    session created over it carries the same name. *)
Definition ws := nat.

Definition remove_ws (w : ws) (l : list ws) : list ws :=
  filter (fun x => negb (x =? w)%nat) l.

(** ** client.go: [handleLocalWebSocket] *)

(** The fields of [Client] guarded by [muxMu], with two ghost fields:
    [closed] lists the websockets on which [Close] has been called and
    [waiting] the handlers blocked in [<-session.CloseChan()], that is the
    sessions that were created and have not shut down yet. *)
Record Client : Type := mkClient {
  muxSession : option ws;
  wsConn : option ws;
  closed : list ws;
  waiting : list ws
}.

Definition New : Client := mkClient None None [] [].

(** Lines 327-342, one critical section:
<<
    c.muxMu.Lock()
    if c.wsConn != nil { c.wsConn.Close() }
    c.wsConn = ws
    session, err := yamux.Server(conn, nil)
    if err != nil { c.muxMu.Unlock(); return }      // defer ws.Close()
    c.muxSession = session
    c.muxMu.Unlock()
>>
*)
Definition attach (w : ws) (yamux_ok : bool) (c : Client) : Client :=
  let closed1 :=
    match wsConn c with
    | Some old => old :: closed c
    | None => closed c
    end in
  if yamux_ok
  then mkClient (Some w) (Some w) closed1 (w :: waiting c)
  else mkClient (muxSession c) (Some w) (w :: closed1) (waiting c).

(** Lines 347-354, after [<-session.CloseChan()] has fired for the
    session over [w]:
<<
    c.muxMu.Lock()
    c.muxSession = nil
    c.wsConn = nil
    c.muxMu.Unlock()                                // defer ws.Close()
>>
*)
Definition close_notified (w : ws) (c : Client) : Client :=
  mkClient None None (w :: closed c) (remove_ws w (waiting c)).

Inductive event : Type :=
| Attach (w : ws) (yamux_ok : bool)
| CloseChan (w : ws).

Definition handle (e : event) (c : Client) : Client :=
  match e with
  | Attach w ok => attach w ok c
  | CloseChan w => close_notified w c
  end.

Definition run (es : list event) (c : Client) : Client :=
  fold_left (fun c e => handle e c) es c.

(** A session is usable when it was created, has not shut down and its
    websocket has not been closed. *)
Definition usable (w : ws) (c : Client) : bool :=
  existsb (Nat.eqb w) (waiting c) && negb (existsb (Nat.eqb w) (closed c)).

(** ** server.go: [handleWebSocket] *)

(** [Server] has no field for a session: each handler owns the session it
    created. The ghost state lists the sessions that were created and not
    closed, and the websockets closed. *)
Record Server : Type := mkServer {
  open_sessions : list ws;
  closed_ws : list ws
}.

Definition NewServer : Server := mkServer [] [].

(** Lines 64-82: upgrade, [yamux.Server]; on failure the handler returns
    and [defer ws.Close()] runs. *)
Definition srv_attach (w : ws) (yamux_ok : bool) (s : Server) : Server :=
  if yamux_ok
  then mkServer (open_sessions s ++ [w]) (closed_ws s)
  else mkServer (open_sessions s) (w :: closed_ws s).

(** Lines 86-94: [session.Accept()] failed; [defer session.Close()] and
    [defer ws.Close()] run. *)
Definition srv_accept_failed (w : ws) (s : Server) : Server :=
  mkServer (remove_ws w (open_sessions s)) (w :: closed_ws s).

Inductive srv_event : Type :=
| SrvAttach (w : ws) (yamux_ok : bool)
| SrvAcceptFailed (w : ws).

Definition srv_handle (e : srv_event) (s : Server) : Server :=
  match e with
  | SrvAttach w ok => srv_attach w ok s
  | SrvAcceptFailed w => srv_accept_failed w s
  end.

Definition srv_run (es : list srv_event) (s : Server) : Server :=
  fold_left (fun s e => srv_handle e s) es s.

End Sessions.

(* ===================================================================== *)
(** * The websocket adapter (the same code in client.go and server.go) *)
(* ===================================================================== *)

Module Adapter.

(** The read side of a [*websocket.Conn]: the messages still to come, then
    the bytes of a message cut short by the failure of the connection
    (none when it fails between messages), then the error every later
    call returns; [readErr = None] is a peer that stays silent. *)
Record Conn : Type := mkConn {
  inbox : list (list byte);
  torn : list byte;
  readErr : option error
}.

(** The [io.Reader] that [NextReader] returns: the unread bytes of the
    message, and at their end [io.EOF] for a whole message or the
    connection's error for one cut short. *)
Record messageReader : Type := mkMR {
  unread : list byte;
  whole : bool
}.

Record wsAdapter : Type := mkAdapter {
  ws : Conn;
  reader : option messageReader
}.

(** [w.ws.NextReader()]. *)
Definition NextReader (c : Conn) : res messageReader * Conn :=
  match inbox c with
  | m :: rest => (Ok (mkMR m true), mkConn rest (torn c) (readErr c))
  | [] =>
      match torn c with
      | _ :: _ => (Ok (mkMR (torn c) false), mkConn [] [] (readErr c))
      | [] =>
          match readErr c with
          | Some e => (Err e, c)
          | None => (Never, c)
          end
      end
  end.

(** [r.Read(b)] with [len(b) = k] on a message reader: the bytes copied
    and the error, or [None] when the call never returns, and the reader
    afterwards. While bytes are unread it copies what fits and returns no
    error; at the end of a whole message it returns [(0, io.EOF)]. *)
Definition reader_Read (k : nat) (c : Conn) (r : messageReader)
  : option (list byte * option error) * messageReader :=
  match unread r with
  | _ :: _ =>
      (Some (firstn k (unread r), None),
       mkMR (skipn k (unread r)) (whole r))
  | [] =>
      if whole r then (Some ([], Some io_EOF), r)
      else
        match readErr c with
        | Some e => (Some ([], Some e), r)
        | None => (None, r)
        end
  end.

(** [wsAdapter.Read] (client.go 364-382, server.go 171-189):
<<
    if w.reader == nil {
      _, r, err := w.ws.NextReader()
      if err != nil { return 0, err }
      w.reader = r
    }
    n, err := w.reader.Read(b)
    if err == io.EOF { w.reader = nil; return n, nil }
    return n, err
>>
    The result is the bytes stored in [b[:n]] and [err], or [None] when
    the call never returns. *)
Definition Read (k : nat) (w : wsAdapter)
  : option (list byte * option error) * wsAdapter :=
  let fetched :=
    match reader w with
    | Some r => (Ok r, ws w)
    | None => NextReader (ws w)
    end in
  match fetched with
  | (Never, c) => (None, mkAdapter c None)
  | (Err e, c) => (Some ([], Some e), mkAdapter c None)
  | (Ok r, c) =>
      match reader_Read k c r with
      | (None, r') => (None, mkAdapter c (Some r'))
      | (Some (data, Some e), r') =>
          if is_EOF e
          then (Some (data, None), mkAdapter c None)
          else (Some (data, Some e), mkAdapter c (Some r'))
      | (Some (data, None), r') =>
          (Some (data, None), mkAdapter c (Some r'))
      end
  end.

(** The unread message cursor. *)
Definition cursor (w : wsAdapter) : option (list byte) :=
  option_map unread (reader w).

(** The adapter used as a byte stream, as yamux does: [Read] is called
    with a buffer of [k] bytes until it returns an error (or [fuel] calls
    have been made, or a call does not return); the result is the bytes
    obtained and the error that ended the stream. *)
Fixpoint read_all (fuel k : nat) (w : wsAdapter)
  : list byte * option error :=
  match fuel with
  | O => ([], None)
  | S fuel' =>
      match Read k w with
      | (None, _) => ([], None)
      | (Some (data, Some e), _) => (data, Some e)
      | (Some (data, None), w') =>
          let (more, r) := read_all fuel' k w' in (data ++ more, r)
      end
  end.

(** The bytes that are still to be read: the cursor, the messages to
    come, and the beginning of the message cut short. *)
Definition bytes_left (w : wsAdapter) : list byte :=
  match reader w with
  | Some r => unread r
  | None => []
  end ++ List.concat (inbox (ws w)) ++ torn (ws w).

(** A reader for a message cut short exists only when that message has
    been taken from the connection, after all the others. *)
Definition consistent (w : wsAdapter) : Prop :=
  match reader w with
  | Some r => whole r = false -> inbox (ws w) = [] /\ torn (ws w) = []
  | None => True
  end.

(** A bound on the calls of [Read] that return without an error. *)
Definition reads_needed (w : wsAdapter) : nat :=
  List.length (bytes_left w) + 2 * List.length (inbox (ws w))
  + match torn (ws w) with [] => 0 | _ :: _ => 2 end
  + match reader w with Some _ => 1 | None => 0 end.

End Adapter.

(* ===================================================================== *)
(** * The relay (server.go 134-148) *)
(* ===================================================================== *)

Module Relay.

(** One end of the pair, the yamux stream or the dialled connection:
    the segments its [Read] will deliver, what [Read] does after them
    ([Some e]: returns [(0, e)], [None]: waits), the error of its [Write]
    if the peer is gone, the bytes its [Write] accepted, whether [Close]
    was called, and whether [Read] still hands out buffered data after
    [Close] (a yamux stream does, a TCP connection does not). *)
Record End : Type := mkEnd {
  pending : list (list byte);
  ending : option error;
  write_err : option error;
  delivered : list byte;
  is_closed : bool;
  drains : bool
}.

(** One [io.Copy(dst, src)] goroutine followed by [done <- struct{}{}]. *)
Inductive copier : Type :=
| Reading                         (* about to call [src.Read] *)
| Holding (chunk : list byte)     (* about to call [dst.Write(chunk)] *)
| Finished.                       (* [io.Copy] returned, [done] was sent *)

(** [handleStream] from [<-done] on. *)
Inductive main_pc : Type :=
| Waiting                         (* blocked in [<-done] *)
| ClosingConn                     (* returning: [defer conn.Close()] *)
| ClosingStream                   (* then [defer stream.Close()] *)
| Returned.

Record State : Type := mkState {
  stream : End;
  conn : End;
  up : copier;                    (* [io.Copy(conn, stream)] *)
  down : copier;                  (* [io.Copy(stream, conn)] *)
  done : nat;                     (* values queued in [done], capacity 2 *)
  main : main_pc
}.

Definition fresh (segments : list (list byte)) (e : option error)
           (werr : option error) (d : bool) : End :=
  mkEnd segments e werr [] false d.

(** The state at line 135; [s_in] is what the stream will deliver and
    [c_in] what the connection will. *)
Definition init (s_in c_in : list (list byte)) (s_end c_end : option error)
           (s_werr c_werr : option error) : State :=
  mkState (fresh s_in s_end s_werr true) (fresh c_in c_end c_werr false)
          Reading Reading 0 Waiting.

(** [src.Read(buf)] inside [io.Copy]: a chunk, the end of the copy, or
    [None] while it waits. *)
Inductive read_outcome : Type :=
| Chunk (p : list byte) (src' : End)
| Stop.

Definition end_Read (src : End) : option read_outcome :=
  match pending src with
  | p :: rest =>
      if (is_closed src && negb (drains src))%bool then Some Stop
      else Some (Chunk p (mkEnd rest (ending src) (write_err src)
                                (delivered src) (is_closed src)
                                (drains src)))
  | [] =>
      if is_closed src then Some Stop
      else match ending src with
           | Some _ => Some Stop
           | None => None
           end
  end.

(** [dst.Write(p)] inside [io.Copy]: [None] when it fails. *)
Definition end_Write (p : list byte) (dst : End) : option End :=
  if is_closed dst then None
  else match write_err dst with
       | Some _ => None
       | None => Some (mkEnd (pending dst) (ending dst) (write_err dst)
                             (delivered dst ++ p) (is_closed dst)
                             (drains dst))
       end.

Definition end_Close (e : End) : End :=
  mkEnd (pending e) (ending e) (write_err e) (delivered e) true (drains e).

Inductive action : Type :=
| UpRead | UpWrite | DownRead | DownWrite
| MainReceive | MainCloseConn | MainCloseStream.

(** One step of one goroutine; [None] when it cannot move. *)
Definition step (a : action) (s : State) : option State :=
  match a with
  | UpRead =>
      match up s with
      | Reading =>
          match end_Read (stream s) with
          | Some (Chunk p src') =>
              Some (mkState src' (conn s) (Holding p) (down s)
                            (done s) (main s))
          | Some Stop =>
              Some (mkState (stream s) (conn s) Finished (down s)
                            (S (done s)) (main s))
          | None => None
          end
      | _ => None
      end
  | UpWrite =>
      match up s with
      | Holding p =>
          match end_Write p (conn s) with
          | Some dst' =>
              Some (mkState (stream s) dst' Reading (down s)
                            (done s) (main s))
          | None =>
              Some (mkState (stream s) (conn s) Finished (down s)
                            (S (done s)) (main s))
          end
      | _ => None
      end
  | DownRead =>
      match down s with
      | Reading =>
          match end_Read (conn s) with
          | Some (Chunk p src') =>
              Some (mkState (stream s) src' (up s) (Holding p)
                            (done s) (main s))
          | Some Stop =>
              Some (mkState (stream s) (conn s) (up s) Finished
                            (S (done s)) (main s))
          | None => None
          end
      | _ => None
      end
  | DownWrite =>
      match down s with
      | Holding p =>
          match end_Write p (stream s) with
          | Some dst' =>
              Some (mkState dst' (conn s) (up s) Reading
                            (done s) (main s))
          | None =>
              Some (mkState (stream s) (conn s) (up s) Finished
                            (S (done s)) (main s))
          end
      | _ => None
      end
  | MainReceive =>
      match main s, done s with
      | Waiting, S n =>
          Some (mkState (stream s) (conn s) (up s) (down s) n ClosingConn)
      | _, _ => None
      end
  | MainCloseConn =>
      match main s with
      | ClosingConn =>
          Some (mkState (stream s) (end_Close (conn s)) (up s) (down s)
                        (done s) ClosingStream)
      | _ => None
      end
  | MainCloseStream =>
      match main s with
      | ClosingStream =>
          Some (mkState (end_Close (stream s)) (conn s) (up s) (down s)
                        (done s) Returned)
      | _ => None
      end
  end.

(** A schedule is run from left to right. *)
Fixpoint run (sched : list action) (s : State) : option State :=
  match sched with
  | [] => Some s
  | a :: rest =>
      match step a s with
      | Some s' => run rest s'
      | None => None
      end
  end.

Definition held (c : copier) : list byte :=
  match c with Holding p => p | _ => [] end.

Definition finished (c : copier) : bool :=
  match c with Finished => true | _ => false end.

(** [l] is an initial part of [total]. *)
Definition prefix (l total : list byte) : Prop :=
  exists rest, total = l ++ rest.

(** The bytes of one direction, [total] in all: what [dst] accepted is an
    initial part of them, and while the copier runs the others are the
    chunk it holds and what [src] has still to deliver. *)
Definition flows (total : list byte) (src dst : End) (c : copier) : Prop :=
  prefix (delivered dst) total
  /\ (finished c = false ->
      total = delivered dst ++ held c ++ List.concat (pending src)).

Definition finished_copiers (s : State) : nat :=
  (if finished (up s) then 1 else 0) + (if finished (down s) then 1 else 0).

(** While [handleStream] waits in [<-done], every finished copier has its
    value queued and nothing has been closed. *)
Definition waiting_ok (s : State) : Prop :=
  main s = Waiting ->
  done s = finished_copiers s
  /\ is_closed (stream s) = false /\ is_closed (conn s) = false.

Definition both_closed (s : State) : Prop :=
  is_closed (stream s) = true /\ is_closed (conn s) = true.

(** The deferred calls run in their order: the connection is closed
    first, the stream second. *)
Definition closing_ok (s : State) : Prop :=
  match main s with
  | Waiting | ClosingConn => True
  | ClosingStream => is_closed (conn s) = true
  | Returned => both_closed s
  end.

(** The invariant of a run in which the stream delivers [total_s] and the
    connection [total_c]. *)
Definition relay_inv (total_s total_c : list byte) (s : State) : Prop :=
  flows total_s (stream s) (conn s) (up s)
  /\ flows total_c (conn s) (stream s) (down s)
  /\ waiting_ok s
  /\ closing_ok s.

(** The schedule of the examples: the stream's bytes are copied and its
    end is seen, [handleStream] returns, and only then the other copier
    runs. *)
Definition upstream_first : list action :=
  [UpRead; UpWrite; UpRead; MainReceive; MainCloseConn; MainCloseStream;
   DownRead].

(** A pair with one byte waiting on each side, both sides ending with
    [io.EOF], and the state in which [upstream_first] leaves it. *)
Definition one_byte_each : State :=
  init [["a"%byte]] [["b"%byte]] (Some io_EOF) (Some io_EOF) None None.

Definition one_byte_each_end : State :=
  mkState (mkEnd [] (Some io_EOF) None [] true true)
          (mkEnd [["b"%byte]] (Some io_EOF) None ["a"%byte] true false)
          Finished Finished 1 Returned.

End Relay.

(* ===================================================================== *)
(** * Concrete environments used in examples *)
(* ===================================================================== *)

Module Samples.

(** A stream whose peer answers with the given bytes in one segment and
    stays open, and whose writes succeed. *)
Definition answering (reply : list byte) : Client.Stream :=
  Client.mkStream (mkReader [reply] None) (fun _ => None).

(** The session is there from the first iteration on. *)
Definition attached : nat -> option Client.session := fun _ => Some 1%nat.

(** No session until iteration [n]. *)
Definition attached_from (n : nat) : nat -> option Client.session :=
  fun i => if (n <=? i)%nat then Some 1%nat else None.

Definition never_attached : nat -> option Client.session := fun _ => None.

Definition opens (reply : list byte) : Client.session -> Client.Stream + error :=
  fun _ => inl (answering reply).

Definition open_fails : Client.session -> Client.Stream + error :=
  fun _ => inr (lib_error "yamux: session shutdown").

Definition not_cancelled : nat -> option error := fun _ => None.

Definition cancelled_at (n : nat) : nat -> option error :=
  fun i => if (i =? n)%nat then Some context_Canceled else None.

(** An address of 256 bytes. *)
Definition long_addr : gostring := repeat "a"%byte 256.

(** "example.com:80" *)
Definition short_addr : gostring :=
  ["e"; "x"; "a"; "m"; "p"; "l"; "e"; "."; "c"; "o"; "m"; ":"; "8"; "0"]%byte.

Definition refuses : string -> gostring -> Z -> Server.conn + error :=
  fun _ _ _ => inr (lib_error "connection refused").

Definition times_out : string -> gostring -> Z -> Server.conn + error :=
  fun _ _ _ => inr (lib_error "i/o timeout").

Definition connects : string -> gostring -> Z -> Server.conn + error :=
  fun _ _ _ => inl 7%nat.

Definition write_ok : list byte -> option error := fun _ => None.

Definition write_fails : list byte -> option error :=
  fun _ => Some (lib_error "stream closed").

End Samples.

(* ===================================================================== *)
(** * The write side of the adapter *)
(* ===================================================================== *)

Module AdapterWrite.

(** The write side of a [*websocket.Conn]: the messages handed over so far,
  one list element per [WriteMessage], and how the connection fails:
  with [lifetime = Some n] the next [n] calls succeed and every later one
  returns [failure]; with [None] every call succeeds. *)
Record Conn : Type := mkConn {
sent : list (list byte);
lifetime : option nat;
failure : error
}.

(** [w.ws.WriteMessage(websocket.BinaryMessage, b)]. *)
Definition WriteMessage (b : list byte) (c : Conn) : option error * Conn :=
match lifetime c with
| Some O => (Some (failure c), c)
| Some (S n) => (None, mkConn (sent c ++ [b]) (Some n) (failure c))
| None => (None, mkConn (sent c ++ [b]) None (failure c))
end.

(** [wsAdapter.Write] (client.go 384-390, server.go 191-197):
<<
  err := w.ws.WriteMessage(websocket.BinaryMessage, b)
  if err != nil { return 0, err }
  return len(b), nil
>>
*)
Definition Write (b : list byte) (c : Conn) : (Z * option error) * Conn :=
match WriteMessage b c with
| (Some err, c') => ((0%Z, Some err), c')
| (None, c') => ((len b, None), c')
end.

(** A writer that calls [Write] for each slice in turn and stops at the
  first error, as the send loop of a session does: the counts returned
  by the calls that succeeded, the error if there was one, and the
  connection afterwards. *)
Fixpoint write_each (bs : list (list byte)) (c : Conn)
: list Z * option error * Conn :=
match bs with
| [] => ([], None, c)
| b :: rest =>
    match Write b c with
    | ((_, Some err), c') => ([], Some err, c')
    | ((n, None), c') =>
        let '(ns, r, c'') := write_each rest c' in (n :: ns, r, c'')
    end
end.

End AdapterWrite.

(* ===================================================================== *)
(** * The accept loop of the Acceptor (server.go) *)
(* ===================================================================== *)

Module Acceptor.

(** A stream returned by [session.Accept()], named by its number. *)
Definition stream := nat.

(** The calls of [handleWebSocket], in program order. *)
Inductive wcall : Type :=
| WLog (l : level) (msg : string)
| Go_handleStream (s : stream)       (* [go s.handleStream(stream)] *)
| SessionClose
| WsClose.

Inductive ended : Type :=
| Handler_returned
| Handler_waits.                     (* [session.Accept()] does not return *)

(** Lines 85-97, given what the successive calls of [session.Accept()]
  return; when the list is used up the next call does not return.
<<
  for {
    stream, err := session.Accept()
    if err != nil {
      if err == io.EOF { s.log.Info("client disconnected", ...) }
      else { s.log.Error("stream accept error", ...) }
      return
    }
    go s.handleStream(stream)
  }
>>
*)
Fixpoint accept_loop (accepts : list (stream + error)) : list wcall * ended :=
match accepts with
| [] => ([], Handler_waits)
| inr err :: _ =>
    ([if is_EOF err then WLog LInfo "client disconnected"
      else WLog LError "stream accept error"], Handler_returned)
| inl st :: rest =>
    let (t, e) := accept_loop rest in (Go_handleStream st :: t, e)
end.

(** [handleWebSocket] (lines 64-98). The deferred calls run when the
  function returns, last deferred first: [session.Close()], then
  [ws.Close()]. *)
Definition handleWebSocket (upgrade_err yamux_err : option error)
         (accepts : list (stream + error)) : list wcall * ended :=
match upgrade_err with
| Some _ => ([WLog LError "websocket upgrade failed"], Handler_returned)
| None =>
    match yamux_err with
    | Some _ =>
        ([WLog LInfo "client connected"; WLog LError "yamux setup failed";
          WsClose], Handler_returned)
    | None =>
        match accept_loop accepts with
        | (t, Handler_returned) =>
            (WLog LInfo "client connected" :: t ++ [SessionClose; WsClose],
             Handler_returned)
        | (t, Handler_waits) =>
            (WLog LInfo "client connected" :: t, Handler_waits)
        end
    end
end.

(** The streams given to [handleStream]. *)
Fixpoint handled (t : list wcall) : list stream :=
match t with
| [] => []
| Go_handleStream s :: t' => s :: handled t'
| _ :: t' => handled t'
end.

(** The streams accepted before the first failing [Accept]. *)
Fixpoint accepted_first (accepts : list (stream + error)) : list stream :=
match accepts with
| inl st :: rest => st :: accepted_first rest
| _ => []
end.

End Acceptor.

(* ===================================================================== *)
(** * A bound on the steps of a relay pair *)
(* ===================================================================== *)

Module RelayBound.

Import Relay.

(** The steps one copier can still take, given what its source still has
  to deliver: two for each segment, one for the read that ends the copy,
  and one more for a chunk in hand. *)
Definition copier_steps (c : copier) (src : End) : nat :=
match c with
| Reading => 2 * List.length (pending src) + 1
| Holding _ => 2 * List.length (pending src) + 2
| Finished => 0
end.

Definition main_steps (m : main_pc) : nat :=
match m with
| Waiting => 3
| ClosingConn => 2
| ClosingStream => 1
| Returned => 0
end.

Definition steps_left (s : State) : nat :=
copier_steps (up s) (stream s) + copier_steps (down s) (conn s)
+ main_steps (main s).

(** The values [handleStream] has taken from [done]: none while it waits,
  one afterwards. *)
Definition received (m : main_pc) : nat :=
match m with
| Waiting => 0
| _ => 1
end.

(** A copier that finished while [handleStream] was still waiting and
  while its destination accepted writes has delivered everything. *)
Definition complete_if_first (total : list byte) (dst : End) (c : copier)
         (m : main_pc) : Prop :=
c = Finished -> write_err dst = None -> m = Waiting ->
delivered dst = total.

End RelayBound.

(* ===================================================================== *)
(** * More concrete inputs *)
(* ===================================================================== *)

Module Samples2.

(** An address of 258 bytes: "ab" followed by 256 times "c". *)
Definition addr258 : gostring := ["a"; "b"]%byte ++ repeat "c"%byte 256.

(** The reply stream of an Acceptor that wrote [status] and, when
  [closed] holds, closed the stream. *)
Definition reply (status : list (list byte)) (closed : bool) : Client.Stream :=
Client.mkStream (mkReader status (if closed then Some io_EOF else None))
                (fun _ => None).

(** The pair [Relay.one_byte_each] after the stream's byte was copied and
  its end seen, while [handleStream] still waits. *)
Definition upstream_done : Relay.State :=
Relay.mkState
  (Relay.mkEnd [] (Some io_EOF) None [] false true)
  (Relay.mkEnd [["b"%byte]] (Some io_EOF) None ["a"%byte] false false)
  Relay.Finished Relay.Reading 1 Relay.Waiting.

(** The events of [n] browser connections that each end before the next
  one begins: every session is attached and, later, its close
  notification is handled. *)
Definition clean_cycles (ws : list Sessions.ws) : list Sessions.event :=
flat_map (fun w => [Sessions.Attach w true; Sessions.CloseChan w]) ws.

End Samples2.

(* ===================================================================== *)
(** * The relay page (the script served by [serveHTML]) *)
(* ===================================================================== *)

Module Browser.

(** [WebSocket.readyState]. *)
Inductive readyState := CONNECTING | OPEN | CLOSING | CLOSED.

(** The two URLs the script opens: ['ws://' + location.host + '/ws/local']
  and [serverURL + '/ws']. *)
Inductive side := LocalSide | ServerSide.

(** The function expressions of the script, named after the property
  they are assigned to: [L_] on [localWS], [S_] on [serverWS]. *)
Inductive handler :=
| L_open | L_message | L_error | L_close
| S_open | S_message | S_error | S_close.

(** The text of a status element: as served, or as set by
  [updateStatus(element, connected)]. *)
Inductive status := AsServed | Connected | Disconnected.

(** A [WebSocket] object: its URL, its state, its four handler
  properties ([None] is [null]) and the data given to its [send]. *)
Record WebSocket : Type := mkWS {
url : side;
state : readyState;
onopen : option handler;
onmessage : option handler;
onerror : option handler;
onclose : option handler;
outbox : list (list byte)
}.

(** The page: the [WebSocket] objects created so far, the script's four
  variables (a socket is referred to by its position), the two status
  elements and the pending [setTimeout(connect, 1000)] timers. The
  counters are JavaScript numbers that only ever grow by byte lengths;
  they are kept as integers. The texts of the counter elements, which
  [updateBytes] derives from the counters, and the console output are
  not kept. *)
Record Page : Type := mkPage {
sockets : list WebSocket;
localWS : option nat;
serverWS : option nat;
bytesSent : Z;
bytesReceived : Z;
localStatus : status;
serverStatus : status;
timers : nat
}.

Definition get (i : nat) (p : Page) : option WebSocket :=
nth_error (sockets p) i.

Fixpoint replace (i : nat) (w : WebSocket) (l : list WebSocket)
: list WebSocket :=
match l, i with
| [], _ => []
| _ :: t, O => w :: t
| h :: t, S j => h :: replace j w t
end.

(** An assignment to a property of socket [i]. *)
Definition modify (i : nat) (f : WebSocket -> WebSocket) (p : Page) : Page :=
match get i p with
| Some w =>
    mkPage (replace i (f w) (sockets p)) (localWS p) (serverWS p)
           (bytesSent p) (bytesReceived p) (localStatus p)
           (serverStatus p) (timers p)
| None => p
end.

Definition set_state (s : readyState) (w : WebSocket) : WebSocket :=
mkWS (url w) s (onopen w) (onmessage w) (onerror w) (onclose w) (outbox w).

Definition set_handlers (o e c : handler) (w : WebSocket) : WebSocket :=
mkWS (url w) (state w) (Some o) (onmessage w) (Some e) (Some c) (outbox w).

Definition set_onmessage (h : handler) (w : WebSocket) : WebSocket :=
mkWS (url w) (state w) (onopen w) (Some h) (onerror w) (onclose w)
     (outbox w).

(** [ws.send(data)] on an open socket. *)
Definition send (data : list byte) (w : WebSocket) : WebSocket :=
mkWS (url w) (state w) (onopen w) (onmessage w) (onerror w) (onclose w)
     (outbox w ++ [data]).

(** [new WebSocket(url)]: a socket in state [CONNECTING] without
  handlers; its position is returned. *)
Definition new_WebSocket (u : side) (p : Page) : nat * Page :=
(List.length (sockets p),
 mkPage (sockets p ++ [mkWS u CONNECTING None None None None []])
        (localWS p) (serverWS p) (bytesSent p) (bytesReceived p)
        (localStatus p) (serverStatus p) (timers p)).

Definition set_localWS (v : option nat) (p : Page) : Page :=
mkPage (sockets p) v (serverWS p) (bytesSent p) (bytesReceived p)
       (localStatus p) (serverStatus p) (timers p).

Definition set_serverWS (v : option nat) (p : Page) : Page :=
mkPage (sockets p) (localWS p) v (bytesSent p) (bytesReceived p)
       (localStatus p) (serverStatus p) (timers p).

Definition add_bytesSent (n : Z) (p : Page) : Page :=
mkPage (sockets p) (localWS p) (serverWS p) (bytesSent p + n)
       (bytesReceived p) (localStatus p) (serverStatus p) (timers p).

Definition add_bytesReceived (n : Z) (p : Page) : Page :=
mkPage (sockets p) (localWS p) (serverWS p) (bytesSent p)
       (bytesReceived p + n) (localStatus p) (serverStatus p) (timers p).

Definition set_localStatus (s : status) (p : Page) : Page :=
mkPage (sockets p) (localWS p) (serverWS p) (bytesSent p)
       (bytesReceived p) s (serverStatus p) (timers p).

Definition set_serverStatus (s : status) (p : Page) : Page :=
mkPage (sockets p) (localWS p) (serverWS p) (bytesSent p)
       (bytesReceived p) (localStatus p) s (timers p).

Definition add_timer (p : Page) : Page :=
mkPage (sockets p) (localWS p) (serverWS p) (bytesSent p)
       (bytesReceived p) (localStatus p) (serverStatus p) (S (timers p)).

Definition is_open (i : nat) (p : Page) : bool :=
match get i p with
| Some w => match state w with OPEN => true | _ => false end
| None => false
end.

(** [function connect()]: a new local socket becomes [localWS] and gets
  its three handlers. *)
Definition connect (p : Page) : Page :=
let (l, p1) := new_WebSocket LocalSide p in
modify l (set_handlers L_open L_error L_close) (set_localWS (Some l) p1).

(** The body of each function expression; [data] is [event.data], an
  [ArrayBuffer], whose [byteLength] is its length. A variable that is
  [null] where the script dereferences it ends the handler there. *)
Definition call (h : handler) (data : list byte) (p : Page) : Page :=
match h with
| L_open =>
    let p1 := set_localStatus Connected p in
    let (s, p2) := new_WebSocket ServerSide p1 in
    modify s (set_handlers S_open S_error S_close)
           (set_serverWS (Some s) p2)
| S_open =>
    let p1 := set_serverStatus Connected p in
    match localWS p1 with
    | None => p1
    | Some l =>
        let p2 := modify l (set_onmessage L_message) p1 in
        match serverWS p2 with
        | None => p2
        | Some s => modify s (set_onmessage S_message) p2
        end
    end
| L_message =>
    match serverWS p with
    | None => p
    | Some s =>
        if is_open s p
        then add_bytesSent (len data) (modify s (send data) p)
        else p
    end
| S_message =>
    match localWS p with
    | None => p
    | Some l =>
        if is_open l p
        then add_bytesReceived (len data) (modify l (send data) p)
        else p
    end
| S_error => set_serverStatus Disconnected p
| S_close =>
    let p1 := set_serverStatus Disconnected p in
    match localWS p1 with
    | None => p1
    | Some l =>
        if is_open l p1 then modify l (set_state CLOSING) p1 else p1
    end
| L_error => set_localStatus Disconnected p
| L_close =>
    add_timer (set_serverStatus Disconnected
                 (set_localStatus Disconnected p))
end.

Definition call_if_set (h : option handler) (data : list byte) (p : Page)
: Page :=
match h with
| Some f => call f data p
| None => p
end.

(** What the browser does to the page. *)
Inductive event :=
| Opened (i : nat)                       (* the connection is established *)
| Message (i : nat) (data : list byte)   (* a binary message has arrived *)
| Failed (i : nat)                       (* an [error] event *)
| Closed (i : nat)                       (* the connection is closed *)
| Timer.                                 (* a [setTimeout] delay has passed *)

(** The browser sets [readyState] and then calls the handler property of
  the socket, if one is set. A message is delivered only to an open
  socket. *)
Definition dispatch (e : event) (p : Page) : Page :=
match e with
| Opened i =>
    match get i p with
    | Some w =>
        match state w with
        | CONNECTING =>
            call_if_set (onopen w) [] (modify i (set_state OPEN) p)
        | _ => p
        end
    | None => p
    end
| Message i data =>
    match get i p with
    | Some w =>
        match state w with
        | OPEN => call_if_set (onmessage w) data p
        | _ => p
        end
    | None => p
    end
| Failed i =>
    match get i p with
    | Some w => call_if_set (onerror w) [] p
    | None => p
    end
| Closed i =>
    match get i p with
    | Some w =>
        match state w with
        | CLOSED => p
        | _ => call_if_set (onclose w) [] (modify i (set_state CLOSED) p)
        end
    | None => p
    end
| Timer =>
    match timers p with
    | O => p
    | S n =>
        connect (mkPage (sockets p) (localWS p) (serverWS p) (bytesSent p)
                        (bytesReceived p) (localStatus p) (serverStatus p)
                        n)
    end
end.

Definition run (es : list event) (p : Page) : Page :=
fold_left (fun p e => dispatch e p) es p.

(** The page once the script has run: the variables are initialised and
  [connect()] has been called. *)
Definition loaded : Page :=
connect (mkPage [] None None 0 0 AsServed AsServed 0).

Definition outbox_of (i : nat) (p : Page) : list (list byte) :=
match get i p with
| Some w => outbox w
| None => []
end.

(** The relay at work: [localWS] and [serverWS] are open and carry the
  two message handlers. *)
Definition relaying (l s : nat) (p : Page) : Prop :=
localWS p = Some l /\ serverWS p = Some s
/\ (exists w, get l p = Some w /\ state w = OPEN
              /\ onmessage w = Some L_message)
/\ (exists w, get s p = Some w /\ state w = OPEN
              /\ onmessage w = Some S_message).

(** A message and the socket it arrives on. *)
Inductive origin := FromLocal | FromServer.

Definition arrivals (l s : nat) (ms : list (origin * list byte))
: list event :=
map (fun m => match fst m with
              | FromLocal => Message l (snd m)
              | FromServer => Message s (snd m)
              end) ms.

Fixpoint from (o : origin) (ms : list (origin * list byte))
: list (list byte) :=
match ms with
| [] => []
| (FromLocal, d) :: rest =>
    match o with FromLocal => d :: from o rest | _ => from o rest end
| (FromServer, d) :: rest =>
    match o with FromServer => d :: from o rest | _ => from o rest end
end.

Fixpoint total_len (ds : list (list byte)) : Z :=
match ds with
| [] => 0
| d :: rest => len d + total_len rest
end.

(** The page after the local and then the server connection have been
  established. *)
Definition started : Page := run [Opened 0; Opened 1] loaded.

(** [localWS] refers to a socket for the local URL, and no socket for the
  server URL is in the state that [close()] puts it in. *)
Definition page_inv (p : Page) : Prop :=
(forall l, localWS p = Some l ->
   exists w, get l p = Some w /\ url w = LocalSide)
/\ (forall i w, get i p = Some w -> url w = ServerSide ->
      state w <> CLOSING).

End Browser.

(* ===================================================================== *)
(** * Properties of the tunnel request encoding *)
(* ===================================================================== *)

Section ListFacts.

Variable A : Type.

(** Two ways of cutting one list: the shorter first part starts the
    longer one. *)
Lemma app_eq_cut (s x p m : list A) :
  s ++ x = p ++ m -> (List.length s <= List.length p)%nat ->
  exists p', p = s ++ p' /\ x = p' ++ m.
Proof.
  revert p. induction s as [|a s IH]; intros p E L.
  - exists p. split; [reflexivity | exact E].
  - destruct p as [|b p]; [simpl in L; lia|].
    simpl in E. injection E as -> E. simpl in L.
    destruct (IH p E) as (p' & -> & ->); [lia|].
    exists p'. split; reflexivity.
Qed.

Lemma firstn_app_exact (p s : list A) : firstn (List.length p) (p ++ s) = p.
Proof. induction p; simpl; [destruct s|]; congruence. Qed.

Lemma skipn_app_exact (p s : list A) : skipn (List.length p) (p ++ s) = s.
Proof. induction p; simpl; congruence. Qed.

End ListFacts.

Lemma byte_of_int_small (n : Z) :
  (0 <= n < 256)%Z -> int_of_byte (byte_of_int n) = n.
Proof.
  intros H. unfold int_of_byte, byte_of_int.
  rewrite Z.mod_small by exact H.
  destruct (Byte.of_N (Z.to_N n)) as [b|] eqn:E.
  - apply Byte.to_of_N in E. rewrite E. lia.
  - apply Byte.of_N_None_iff in E. lia.
Qed.

Lemma byte_of_int_wraps (n : Z) :
  int_of_byte (byte_of_int n) = (n mod 256)%Z.
Proof.
  unfold byte_of_int at 1. 
  pose proof (Z.mod_pos_bound n 256 ltac:(lia)) as B.
  unfold int_of_byte.
  destruct (Byte.of_N (Z.to_N (n mod 256))) as [b|] eqn:E.
  - apply Byte.to_of_N in E. rewrite E. lia.
  - apply Byte.of_N_None_iff in E. lia.
Qed.

(** Reading exactly the bytes that are there: whatever the segments, a
    [ReadAtLeast] that still needs [pre] and finds [pre ++ more] returns
    [pre] and leaves [more]. *)
Lemma ReadAtLeast_exact (tl : option error) (min : nat) :
  forall (sg : list (list byte)) (acc pre more : list byte),
    (List.length acc + List.length pre = min)%nat ->
    List.concat sg = pre ++ more ->
    exists r', ReadAtLeast sg tl min acc = (Ok (acc ++ pre), r')
               /\ List.concat (segs r') = more /\ tail r' = tl.
Proof.
  induction sg as [|s rest IH]; intros acc pre more L E.
  - simpl in E. symmetry in E. apply app_eq_nil in E as [-> ->].
    simpl in L. simpl.
    replace (min <=? List.length acc)%nat with true
      by (symmetry; apply Nat.leb_le; lia).
    rewrite app_nil_r. eexists. repeat split.
  - simpl ReadAtLeast.
    destruct (min <=? List.length acc)%nat eqn:Hm.
    + apply Nat.leb_le in Hm.
      destruct pre as [|b pre]; [|simpl in L; lia].
      rewrite app_nil_r. eexists. repeat split. exact E.
    + apply Nat.leb_gt in Hm.
      replace (min - List.length acc)%nat with (List.length pre) by lia.
      simpl in E.
      destruct (List.length s <=? List.length pre)%nat eqn:Hs.
      * apply Nat.leb_le in Hs.
        destruct (app_eq_cut _ _ _ _ _ E Hs) as (p' & -> & E').
        destruct (IH (acc ++ s) p' more) as (r' & R & C & T);
          [rewrite length_app in *; lia | exact E' |].
        exists r'. rewrite R, app_assoc. repeat split; assumption.
      * apply Nat.leb_gt in Hs.
        symmetry in E.
        destruct (app_eq_cut _ _ _ _ _ E ltac:(lia)) as (s' & -> & ->).
        rewrite firstn_app_exact, skipn_app_exact.
        eexists. repeat split.
  Qed.

Lemma ReadFull_exact (r : Reader) (pre more : list byte) :
  List.concat (segs r) = pre ++ more ->
  exists r', ReadFull r (List.length pre) = (Ok pre, r')
             /\ List.concat (segs r') = more /\ tail r' = tail r.
Proof.
  intros E. unfold ReadFull.
  destruct (ReadAtLeast_exact (tail r) (List.length pre) (segs r) [] pre more eq_refl E)
    as (r' & R & C & T).
  exists r'. repeat split; assumption.
Qed.

(** C4. For every target address of at most 255 bytes, the request written
    by the Initiator (one length byte, then the address bytes), delivered to
    the Acceptor in any segmentation and followed by any further bytes, is
    decoded by [handleStream] to the identical address: that address is the
    one dialled, and the stream is left at the first byte after the
    request. *)
Theorem request_roundtrip
  (dial : string -> gostring -> Z -> Server.conn + error)
  (wr : list byte -> option error)
  (addr : gostring) (sg : list (list byte)) (tl : option error)
  (more : list byte) :
  (List.length addr <= 255)%nat ->
  List.concat sg = Client.header addr ++ more ->
  exists stream2,
    List.concat (segs stream2) = more /\
    Server.handleStream dial wr (mkReader sg tl) =
      match dial "tcp" addr 10%Z with
      | inr _ =>
          ([DialTimeout "tcp" addr 10; Log LError "connection failed";
            StreamWrite [x01] (wr [x01]); StreamClose], Server.Returned)
      | inl c =>
          ([DialTimeout "tcp" addr 10; StreamWrite [x00] (wr [x00]);
            Log LInfo "proxying"], Server.Relaying c stream2)
      end.
Proof.
  intros L E. unfold Client.header in E. rewrite <- app_assoc in E.
  destruct (ReadFull_exact (mkReader sg tl) [byte_of_int (len addr)]
              (addr ++ more) E) as (r1 & R1 & C1 & T1).
  destruct (ReadFull_exact r1 addr more C1) as (r2 & R2 & C2 & T2).
  exists r2. split; [exact C2|].
  unfold Server.handleStream. simpl List.length in R1. rewrite R1.
  cbn [nth]. rewrite byte_of_int_small by (unfold len; lia).
  unfold len. rewrite Nat2Z.id, R2.
  destruct (dial "tcp" addr 10%Z); reflexivity.
Qed.

Lemma request_roundtrip_witness :
  exists stream2,
    List.concat (segs stream2) = [] /\
    Server.handleStream Samples.connects Samples.write_ok
      (mkReader [Client.header Samples.short_addr] None) =
      ([DialTimeout "tcp" Samples.short_addr 10; StreamWrite [x00] None;
        Log LInfo "proxying"], Server.Relaying 7%nat stream2).
Proof.
  apply (request_roundtrip Samples.connects Samples.write_ok
           Samples.short_addr [Client.header Samples.short_addr] None []).
  - simpl. lia.
  - simpl. reflexivity.
Defined.

(* ===================================================================== *)
(** * Properties of [dialThroughTunnel] *)
(* ===================================================================== *)

Lemma written_app (t1 t2 : list call) :
  written (t1 ++ t2) = written t1 ++ written t2.
Proof.
  induction t1 as [|c t1 IH]; [reflexivity|].
  destruct c; simpl; rewrite IH; reflexivity.
Qed.

Lemma slept_app (t1 t2 : list call) :
  Client.slept (t1 ++ t2) = (Client.slept t1 + Client.slept t2)%Z.
Proof.
  induction t1 as [|c t1 IH]; [reflexivity|].
  destruct c; simpl; rewrite IH; lia.
Qed.

Lemma opens_called_app (t1 t2 : list call) :
  Client.opens_called (t1 ++ t2) = (Client.opens_called t1 + Client.opens_called t2)%nat.
Proof. unfold Client.opens_called. rewrite filter_app, length_app. reflexivity. Qed.

Section WaitLoop.

Variable muxSession_at : nat -> option Client.session.
Variable session_Open : Client.session -> Client.Stream + error.
Variable ctx_Done : nat -> option error.

Let wait_loop := Client.wait_loop muxSession_at session_Open ctx_Done.

Let idle := Client.idle muxSession_at ctx_Done.

(** The wait loop writes nothing to a stream. *)
Lemma wait_loop_writes_nothing (left : nat) :
  forall retries, written (fst (wait_loop left retries)) = [].
Proof.
  unfold wait_loop.
  induction left as [|left IH]; intros retries; simpl; [reflexivity|].
  destruct (muxSession_at retries) as [s|].
  - destruct (session_Open s); reflexivity.
  - destruct (ctx_Done retries).
    + destruct (retries =? 0)%nat; reflexivity.
    + specialize (IH (S retries)).
      destruct (Client.wait_loop _ _ _ left (S retries)) as [t w].
      simpl in *. rewrite written_app. simpl. rewrite IH.
      destruct (retries =? 0)%nat; reflexivity.
Qed.

(** [k] idle iterations cost [k] seconds and no call of [Open], and the
    loop goes on from iteration [retries + k]. *)
Lemma wait_loop_idle (k : nat) :
  forall left retries,
    (forall i, (retries <= i < retries + k)%nat -> idle i) ->
    exists tk,
      Client.slept tk = Z.of_nat k /\ Client.opens_called tk = 0%nat /\
      wait_loop (k + left) retries =
        (tk ++ fst (wait_loop left (retries + k)),
         snd (wait_loop left (retries + k))).
Proof.
  unfold wait_loop.
  induction k as [|k IH]; intros left retries H.
  - exists []. rewrite Nat.add_0_r. simpl.
    destruct (Client.wait_loop _ _ _ left retries); repeat split.
  - assert (Hr : (retries <= retries < retries + S k)%nat) by lia.
    destruct (H retries Hr) as [Hm Hc].
    destruct (IH left (S retries)) as (tk & Hs & Ho & Hw).
    { intros i Hi. apply H. lia. }
    simpl Client.wait_loop. rewrite Hm, Hc.
    replace (Nat.add k left) with (k + left)%nat by reflexivity.
    rewrite Hw. replace (S retries + k)%nat with (retries + S k)%nat by lia.
    exists ((if (retries =? 0)%nat
             then [Log LInfo "waiting for browser connection..."]
             else []) ++ Sleep 1 :: tk).
    repeat split.
    + rewrite slept_app. cbn [Client.slept]. rewrite Hs, Nat2Z.inj_succ.
      destruct (retries =? 0)%nat; cbn [Client.slept]; lia.
    + rewrite opens_called_app.
      change (Sleep 1 :: tk) with ([Sleep 1] ++ tk).
      rewrite opens_called_app, Ho.
      destruct (retries =? 0)%nat; reflexivity.
    + rewrite <- app_assoc. reflexivity.
Qed.

End WaitLoop.

Section OpenStream.

Variable muxSession_at : nat -> option Client.session.
Variable session_Open : Client.session -> Client.Stream + error.
Variable ctx_Done : nat -> option error.

Let wait_loop := Client.wait_loop muxSession_at session_Open ctx_Done.
Let dialThroughTunnel :=
  Client.dialThroughTunnel muxSession_at session_Open ctx_Done.

Lemma wait_loop_30 (n : nat) :
  (n <= 30)%nat ->
  (forall i, (i < n)%nat -> Client.idle muxSession_at ctx_Done i) ->
  exists tk,
    Client.slept tk = Z.of_nat n /\ Client.opens_called tk = 0%nat /\
    wait_loop 30 0 =
      (tk ++ fst (wait_loop (30 - n) n), snd (wait_loop (30 - n) n)).
Proof.
  intros Hn Hidle.
  destruct (wait_loop_idle muxSession_at session_Open ctx_Done n (30 - n) 0)
    as (tk & Hs & Ho & Hw).
  { intros i Hi. apply Hidle. lia. }
  exists tk. repeat split; try assumption.
  unfold wait_loop. replace 30%nat with (n + (30 - n))%nat at 1 by lia.
  exact Hw.
Qed.

(** C6. Opening a logical stream. Let the first [n] iterations of the wait
    loop be idle (no session, and the one-second timer fires before the
    context is done). Then
    - if [n = 30], all thirty attempts were used: the call fails with the
      timeout error after thirty one-second waits, without calling [Open];
    - if the context is done in iteration [n < 30], the call fails with
      the context's error after [n] seconds;
    - if iteration [n < 30] finds a session, the call has waited [n]
      seconds and delegates to that session's [Open], once: an error of
      [Open] is returned at once (wrapped, not retried), and a stream
      ends the wait and is the one the request is then written to. *)
Theorem open_stream_policy (addr : gostring) (n : nat) :
  (n <= 30)%nat ->
  (forall i, (i < n)%nat -> Client.idle muxSession_at ctx_Done i) ->
  (n = 30%nat ->
     snd (dialThroughTunnel addr) =
       Err (Errorf "timeout waiting for browser connection")
     /\ Client.slept (fst (dialThroughTunnel addr)) = 30%Z
     /\ Client.opens_called (fst (dialThroughTunnel addr)) = 0%nat)
  /\ (forall e, (n < 30)%nat ->
        muxSession_at n = None -> ctx_Done n = Some e ->
        snd (dialThroughTunnel addr) = Err e
        /\ Client.slept (fst (dialThroughTunnel addr)) = Z.of_nat n
        /\ Client.opens_called (fst (dialThroughTunnel addr)) = 0%nat)
  /\ (forall s e, (n < 30)%nat ->
        muxSession_at n = Some s -> session_Open s = inr e ->
        snd (dialThroughTunnel addr) =
          Err (Errorf_w "failed to open stream" e)
        /\ Client.slept (fst (dialThroughTunnel addr)) = Z.of_nat n
        /\ Client.opens_called (fst (dialThroughTunnel addr)) = 1%nat)
  /\ (forall s st, (n < 30)%nat ->
        muxSession_at n = Some s -> session_Open s = inl st ->
        snd (wait_loop 30 0) = Client.Opened st
        /\ Client.slept (fst (wait_loop 30 0)) = Z.of_nat n
        /\ Client.opens_called (fst (wait_loop 30 0)) = 1%nat
        /\ exists rest,
             fst (dialThroughTunnel addr) =
               fst (wait_loop 30 0)
               ++ StreamWrite (Client.header addr)
                    (Client.Write_result st (Client.header addr)) :: rest).
Proof.
  intros Hn Hidle.
  destruct (wait_loop_30 n Hn Hidle) as (tk & Hs & Ho & Hw).
  unfold dialThroughTunnel, Client.dialThroughTunnel.
  fold wait_loop. rewrite Hw. clear Hw.
  split; [|split; [|split]].
  - intros ->. simpl. rewrite app_nil_r. auto.
  - intros e Hlt Hm Hc.
    destruct (30 - n)%nat as [|l] eqn:El; [lia|].
    unfold wait_loop. simpl. rewrite Hm, Hc. simpl.
    rewrite slept_app, opens_called_app, Hs, Ho.
    destruct (n =? 0)%nat; simpl; repeat split; lia.
  - intros s e Hlt Hm Hop.
    destruct (30 - n)%nat as [|l] eqn:El; [lia|].
    unfold wait_loop. simpl. rewrite Hm, Hop. simpl.
    rewrite slept_app, opens_called_app, Hs, Ho.
    simpl; repeat split; lia.
  - intros s st Hlt Hm Hop.
    destruct (30 - n)%nat as [|l] eqn:El; [lia|].
    unfold wait_loop. simpl. rewrite Hm, Hop. simpl.
    rewrite slept_app, opens_called_app, Hs, Ho.
    split; [reflexivity|]. split; [simpl; lia|]. split; [reflexivity|].
    destruct (Client.Write_result st (Client.header addr)).
    + eexists. reflexivity.
    + destruct (ReadFull (Client.inbound st) 1) as [[status| |] rest].
      * destruct (Byte.eqb (nth 0 status x00) x00); eexists; reflexivity.
      * eexists. reflexivity.
      * eexists. reflexivity.
Qed.

End OpenStream.

Lemma open_stream_policy_witness :
  snd (Client.wait_loop (Samples.attached_from 3) (Samples.opens [x00])
         Samples.not_cancelled 30 0)
    = Client.Opened (Samples.answering [x00])
  /\ Client.slept
       (fst (Client.wait_loop (Samples.attached_from 3) (Samples.opens [x00])
               Samples.not_cancelled 30 0)) = 3%Z
  /\ Client.opens_called
       (fst (Client.wait_loop (Samples.attached_from 3) (Samples.opens [x00])
               Samples.not_cancelled 30 0)) = 1%nat.
Proof.
  destruct (open_stream_policy (Samples.attached_from 3) (Samples.opens [x00])
              Samples.not_cancelled Samples.short_addr 3)
    as (_ & _ & _ & H).
  - lia.
  - intros i Hi. destruct i as [|[|[|i]]]; [split; reflexivity ..|lia].
  - destruct (H 1%nat (Samples.answering [x00])) as (H1 & H2 & H3 & _);
      [lia | reflexivity ..|].
    split; [exact H1|]. split; [exact H2 | exact H3].
Defined.

(** The thirty attempts, run: a session that is there at the thirtieth
    attempt is used, one that is never there gives the timeout error after
    thirty seconds, and a cancellation ends the wait with the context's
    error. *)
Example open_at_last_attempt :
  let r := Client.wait_loop (Samples.attached_from 29) (Samples.opens [x00])
             Samples.not_cancelled 30 0 in
  snd r = Client.Opened (Samples.answering [x00]) /\ Client.slept (fst r) = 29%Z.
Proof. vm_compute. split; reflexivity. Qed.

Example open_times_out :
  let r := Client.dialThroughTunnel Samples.never_attached (Samples.opens [x00])
             Samples.not_cancelled Samples.short_addr in
  snd r = Err (Errorf "timeout waiting for browser connection")
  /\ Client.slept (fst r) = 30%Z /\ written (fst r) = [].
Proof. vm_compute. repeat split; reflexivity. Qed.

Example open_cancelled :
  Client.dialThroughTunnel Samples.never_attached (Samples.opens [x00])
    (Samples.cancelled_at 2) Samples.short_addr
  = ([Log LInfo "waiting for browser connection..."; Sleep 1; Sleep 1],
     Err context_Canceled).
Proof. vm_compute. reflexivity. Qed.

Example open_error_not_retried :
  Client.dialThroughTunnel (Samples.attached_from 1) Samples.open_fails
    Samples.not_cancelled Samples.short_addr
  = ([Log LInfo "waiting for browser connection..."; Sleep 1; SessionOpen],
     Err (Errorf_w "failed to open stream"
            (lib_error "yamux: session shutdown"))).
Proof. vm_compute. reflexivity. Qed.

(** ** Addresses longer than 255 bytes *)

(** C1 does not hold as stated: a 256-byte address is neither refused nor
    kept from the stream; the request is written with length byte 0. *)
Lemma long_address_not_rejected :
  ~ (forall (mux : nat -> option Client.session)
            (open : Client.session -> Client.Stream + error)
            (ctx : nat -> option error) (addr : gostring),
        (255 < List.length addr)%nat ->
        written (fst (Client.dialThroughTunnel mux open ctx addr)) = []).
Proof.
  intros H.
  specialize (H Samples.attached (Samples.opens [x00]) Samples.not_cancelled
                Samples.long_addr).
  assert (L : (255 < List.length Samples.long_addr)%nat)
    by (unfold Samples.long_addr; rewrite repeat_length; lia).
  specialize (H L). vm_compute in H. discriminate H.
Qed.

Example long_address_run :
  Client.dialThroughTunnel Samples.attached (Samples.opens [x00])
    Samples.not_cancelled Samples.long_addr
  = ([SessionOpen; StreamWrite (x00 :: Samples.long_addr) None;
      Log LInfo "connected"], Ok (mkReader [] None)).
Proof. vm_compute. reflexivity. Qed.

(** What the Acceptor makes of that request: the empty address. *)
Example long_address_decoded :
  fst (Server.handleStream Samples.refuses Samples.write_ok
         (mkReader [Client.header Samples.long_addr] None))
  = [DialTimeout "tcp" [] 10; Log LError "connection failed";
     StreamWrite [x01] None; StreamClose].
Proof. vm_compute. reflexivity. Qed.

(** C1, amended. [dialThroughTunnel] has no check on the length of the
    address. For every address longer than 255 bytes, once the wait loop has
    produced a stream, exactly one request is written to it: the length of
    the address reduced modulo 256 as the length byte, which therefore
    differs from the length, followed by all bytes of the address. *)
Theorem long_address_header
  (mux : nat -> option Client.session)
  (open : Client.session -> Client.Stream + error)
  (ctx : nat -> option error) (addr : gostring)
  (t : list call) (stream : Client.Stream) :
  (255 < List.length addr)%nat ->
  Client.wait_loop mux open ctx 30 0 = (t, Client.Opened stream) ->
  written (fst (Client.dialThroughTunnel mux open ctx addr))
    = [byte_of_int (len addr) :: addr]
  /\ int_of_byte (byte_of_int (len addr)) = (len addr mod 256)%Z
  /\ int_of_byte (byte_of_int (len addr)) <> len addr.
Proof.
  intros L W.
  pose proof (wait_loop_writes_nothing mux open ctx 30 0) as N.
  rewrite W in N. simpl in N.
  split; [|split].
  - unfold Client.dialThroughTunnel. rewrite W.
    destruct (Client.Write_result stream (Client.header addr)).
    + simpl. rewrite written_app, N. reflexivity.
    + destruct (ReadFull (Client.inbound stream) 1) as [[status| |] rest].
      * destruct (Byte.eqb (nth 0 status x00) x00);
          simpl; rewrite written_app, N; reflexivity.
      * simpl. rewrite written_app, N. reflexivity.
      * simpl. rewrite written_app, N. reflexivity.
  - apply byte_of_int_wraps.
  - rewrite byte_of_int_wraps.
    pose proof (Z.mod_pos_bound (len addr) 256 ltac:(lia)).
    unfold len in *. lia.
Qed.

Lemma long_address_header_witness :
  written (fst (Client.dialThroughTunnel Samples.attached
                  (Samples.opens [x00]) Samples.not_cancelled
                  Samples.long_addr))
    = [byte_of_int (len Samples.long_addr) :: Samples.long_addr]
  /\ int_of_byte (byte_of_int (len Samples.long_addr))
     = (len Samples.long_addr mod 256)%Z
  /\ int_of_byte (byte_of_int (len Samples.long_addr))
     <> len Samples.long_addr.
Proof.
  apply (long_address_header Samples.attached (Samples.opens [x00])
           Samples.not_cancelled Samples.long_addr
           [SessionOpen] (Samples.answering [x00])).
  - unfold Samples.long_addr. rewrite repeat_length. lia.
  - reflexivity.
Defined.

(* ===================================================================== *)
(** * Properties of [handleStream] *)
(* ===================================================================== *)

(** The shape of every run of [handleStream]: which target is dialled, if
    any, fixes the calls that follow. *)
Lemma handleStream_cases
  (dial : string -> gostring -> Z -> Server.conn + error)
  (wr : list byte -> option error) (stream : Reader) :
  (fst (Server.handleStream dial wr stream) = []
   /\ snd (Server.handleStream dial wr stream) = Server.Blocked)
  \/ (exists msg,
        Server.handleStream dial wr stream =
          ([Log LError msg; StreamClose], Server.Returned))
  \/ (exists target e,
        dial "tcp" target 10%Z = inr e /\
        Server.handleStream dial wr stream =
          ([DialTimeout "tcp" target 10; Log LError "connection failed";
            StreamWrite [x01] (wr [x01]); StreamClose], Server.Returned))
  \/ (exists target c stream2,
        dial "tcp" target 10%Z = inl c /\
        Server.handleStream dial wr stream =
          ([DialTimeout "tcp" target 10; StreamWrite [x00] (wr [x00]);
            Log LInfo "proxying"], Server.Relaying c stream2)).
Proof.
  unfold Server.handleStream.
  destruct (ReadFull stream 1) as [[lenBuf| |] stream1].
  - destruct (ReadFull stream1 _) as [[addrBuf| |] stream2].
    + destruct (dial "tcp" addrBuf 10%Z) as [c|e] eqn:D.
      * right; right; right. exists addrBuf, c, stream2. rewrite D. auto.
      * right; right; left. exists addrBuf, e. rewrite D. auto.
    + right; left. eexists. reflexivity.
    + left. auto.
  - right; left. eexists. reflexivity.
  - left. auto.
Qed.

(** C7. Whenever [handleStream] dials the parsed target and the dial fails
    (a refusal or the expiry of the 10-second timeout alike), what it does
    from the dial on is: log, write the one byte 0x01, close the stream.
    Exactly one write is made, of exactly that byte, and the close is the
    last call. *)
Theorem dial_failure_status
  (dial : string -> gostring -> Z -> Server.conn + error)
  (wr : list byte -> option error) (stream : Reader)
  (target : gostring) (e : error) :
  In (DialTimeout "tcp" target 10)
     (fst (Server.handleStream dial wr stream)) ->
  dial "tcp" target 10%Z = inr e ->
  Server.handleStream dial wr stream =
    ([DialTimeout "tcp" target 10; Log LError "connection failed";
      StreamWrite [x01] (wr [x01]); StreamClose], Server.Returned)
  /\ written (fst (Server.handleStream dial wr stream)) = [[x01]].
Proof.
  intros Hin Hd.
  destruct (handleStream_cases dial wr stream)
    as [[E _] | [(msg & E) | [(tg & e' & D & E) | (tg & c & s2 & D & E)]]];
    rewrite E in Hin |- *; simpl in Hin.
  - contradiction.
  - destruct Hin as [H | [H | []]]; discriminate H.
  - destruct Hin as [H | [H | [H | [H | []]]]]; try discriminate H.
    injection H as ->. split; reflexivity.
  - destruct Hin as [H | [H | [H | []]]]; try discriminate H.
    injection H as ->. congruence.
Qed.

Lemma dial_failure_status_witness :
  Server.handleStream Samples.times_out Samples.write_ok
    (mkReader [Client.header Samples.short_addr] (Some io_EOF)) =
    ([DialTimeout "tcp" Samples.short_addr 10;
      Log LError "connection failed";
      StreamWrite [x01] (Samples.write_ok [x01]); StreamClose],
     Server.Returned)
  /\ written (fst (Server.handleStream Samples.times_out Samples.write_ok
                     (mkReader [Client.header Samples.short_addr]
                        (Some io_EOF)))) = [[x01]].
Proof.
  apply (dial_failure_status Samples.times_out Samples.write_ok
           (mkReader [Client.header Samples.short_addr] (Some io_EOF))
           Samples.short_addr (lib_error "i/o timeout")).
  - simpl. left. reflexivity.
  - reflexivity.
Defined.

(** An address of length 0 is dialled like any other. *)
Example empty_address_dialled :
  Server.handleStream Samples.refuses Samples.write_ok
    (mkReader [[x00]] None)
  = ([DialTimeout "tcp" [] 10; Log LError "connection failed";
      StreamWrite [x01] None; StreamClose], Server.Returned).
Proof. reflexivity. Qed.

(** C10. The value returned by the write of the status byte is not used:
    with any two behaviours of [stream.Write], [handleStream] makes the same
    calls in the same order and ends in the same way. In particular a
    successful dial is followed by the relay whatever the write of 0x00
    returned, and after a failed dial the error of the write of 0x01 changes
    nothing. *)
Theorem status_write_result_unused
  (dial : string -> gostring -> Z -> Server.conn + error)
  (wr1 wr2 : list byte -> option error) (stream : Reader) :
  map forget (fst (Server.handleStream dial wr1 stream))
    = map forget (fst (Server.handleStream dial wr2 stream))
  /\ snd (Server.handleStream dial wr1 stream)
     = snd (Server.handleStream dial wr2 stream)
  /\ (forall target c,
        In (DialTimeout "tcp" target 10)
           (fst (Server.handleStream dial wr1 stream)) ->
        dial "tcp" target 10%Z = inl c ->
        exists stream2,
          snd (Server.handleStream dial wr1 stream)
            = Server.Relaying c stream2).
Proof.
  split; [|split].
  - unfold Server.handleStream.
    destruct (ReadFull stream 1) as [[lenBuf| |] stream1]; try reflexivity.
    destruct (ReadFull stream1 _) as [[addrBuf| |] stream2]; try reflexivity.
    destruct (dial "tcp" addrBuf 10%Z); reflexivity.
  - unfold Server.handleStream.
    destruct (ReadFull stream 1) as [[lenBuf| |] stream1]; try reflexivity.
    destruct (ReadFull stream1 _) as [[addrBuf| |] stream2]; try reflexivity.
    destruct (dial "tcp" addrBuf 10%Z); reflexivity.
  - intros target c Hin Hd.
    destruct (handleStream_cases dial wr1 stream)
      as [[E _] | [(msg & E) | [(tg & e' & D & E) | (tg & c' & s2 & D & E)]]];
      rewrite E in Hin; simpl in Hin.
    + contradiction.
    + destruct Hin as [H | [H | []]]; discriminate H.
    + destruct Hin as [H | [H | [H | [H | []]]]]; try discriminate H.
      injection H as ->. congruence.
    + destruct Hin as [H | [H | [H | []]]]; try discriminate H.
      injection H as ->. exists s2. rewrite E. simpl. congruence.
Qed.

Example relay_after_failed_status_write :
  Server.handleStream Samples.connects Samples.write_fails
    (mkReader [Client.header Samples.short_addr] None)
  = ([DialTimeout "tcp" Samples.short_addr 10;
      StreamWrite [x00] (Some (lib_error "stream closed"));
      Log LInfo "proxying"], Server.Relaying 7%nat (mkReader [] None)).
Proof. vm_compute. reflexivity. Qed.

(* ===================================================================== *)
(** * Properties of the session bookkeeping *)
(* ===================================================================== *)

(** The clearing done after a close notification does not look at what the
    fields hold. *)
Lemma close_notified_clears (w : Sessions.ws) (c : Sessions.Client) :
  Sessions.muxSession (Sessions.close_notified w c) = None
  /\ Sessions.wsConn (Sessions.close_notified w c) = None.
Proof. split; reflexivity. Qed.

(** C2, on the code. Session 1 is attached, then session 2 is attached,
    which closes the websocket of session 1; the close notification of
    session 1 follows. Before it the current session is 2; after it the
    current-session reference is empty although session 2 is open over an
    open websocket, and session 1 is the one that is gone. *)
Theorem stale_close_clears_newer_session :
  let before :=
    Sessions.run [Sessions.Attach 1 true; Sessions.Attach 2 true]
      Sessions.New in
  let after :=
    Sessions.run [Sessions.Attach 1 true; Sessions.Attach 2 true;
                  Sessions.CloseChan 1] Sessions.New in
  Sessions.muxSession before = Some 2%nat
  /\ In 1%nat (Sessions.closed before)
  /\ Sessions.muxSession after = None
  /\ Sessions.wsConn after = None
  /\ Sessions.usable 2 after = true
  /\ Sessions.usable 1 after = false.
Proof. vm_compute. intuition. Qed.

(** What follows from it: the next attach finds no websocket recorded and
    closes nothing, so sessions 2 and 3 are both open over open
    websockets. *)
Example two_usable_sessions_after_stale_close :
  let c :=
    Sessions.run [Sessions.Attach 1 true; Sessions.Attach 2 true;
                  Sessions.CloseChan 1; Sessions.Attach 3 true]
      Sessions.New in
  Sessions.muxSession c = Some 3%nat
  /\ Sessions.usable 2 c = true /\ Sessions.usable 3 c = true.
Proof. vm_compute. intuition. Qed.

(** When nothing was attached in between, the clearing is the right one. *)
Example close_of_current_session :
  let c := Sessions.run [Sessions.Attach 1 true; Sessions.CloseChan 1]
             Sessions.New in
  Sessions.muxSession c = None /\ Sessions.usable 1 c = false.
Proof. vm_compute. intuition. Qed.

(** C3 does not hold as stated: on the Acceptor a second attach leaves the
    first session open, and the new session is not the only one. *)
Lemma acceptor_sessions_coexist :
  ~ (forall (es : list Sessions.srv_event) (w : Sessions.ws),
        Sessions.open_sessions
          (Sessions.srv_run (es ++ [Sessions.SrvAttach w true])
             Sessions.NewServer) = [w]).
Proof.
  intros H. specialize (H [Sessions.SrvAttach 1 true] 2%nat).
  vm_compute in H. discriminate H.
Qed.

(** C3, amended. In [handleLocalWebSocket] an attach whose session setup
    succeeds closes the websocket recorded so far, if there is one, and
    makes the new session and websocket the current ones; it does not shut
    the earlier session down itself, whose handler keeps waiting for the
    close notification. In [handleWebSocket] an attach leaves every open
    session open and closes no websocket other than, on a failed setup, its
    own. *)
Theorem attach_replaces_current :
  (forall (c : Sessions.Client) (w : Sessions.ws),
      Sessions.muxSession (Sessions.attach w true c) = Some w
      /\ Sessions.wsConn (Sessions.attach w true c) = Some w
      /\ (forall old, Sessions.wsConn c = Some old ->
            In old (Sessions.closed (Sessions.attach w true c)))
      /\ (forall x, In x (Sessions.waiting c) ->
            In x (Sessions.waiting (Sessions.attach w true c))))
  /\ (forall (s : Sessions.Server) (w : Sessions.ws) (ok : bool),
        (forall x, In x (Sessions.open_sessions s) ->
           In x (Sessions.open_sessions (Sessions.srv_attach w ok s)))
        /\ (forall x, In x (Sessions.closed_ws (Sessions.srv_attach w ok s)) ->
              x = w \/ In x (Sessions.closed_ws s))).
Proof.
  split.
  - intros c w. unfold Sessions.attach. simpl. repeat split.
    + intros old H. rewrite H. left. reflexivity.
    + intros x H. right. exact H.
  - intros s w ok. unfold Sessions.srv_attach.
    destruct ok; simpl; split; intros x H.
    + apply in_or_app. left. exact H.
    + right. exact H.
    + exact H.
    + destruct H as [H | H]; [left; symmetry; exact H | right; exact H].
Qed.

(* ===================================================================== *)
(** * The adapter as a byte stream *)
(* ===================================================================== *)

Section AdapterStream.

Import Adapter.

Lemma firstn_positive (A : Type) (k : nat) (l : list A) :
  (1 <= k)%nat -> l <> [] ->
  (List.length (skipn k l) < List.length l)%nat.
Proof.
  intros Hk Hl. rewrite length_skipn.
  destruct l; [contradiction | cbn [List.length]; lia].
Qed.

(** Compares the bounds before and after a call. *)
Ltac measure :=
  unfold reads_needed, bytes_left;
  cbn [reader ws inbox torn readErr unread whole List.concat];
  rewrite ?app_nil_r, ?length_app; cbn [List.length app] in *;
  rewrite ?length_app;
  try match goal with
      | |- context [match ?t with [] => _ | _ :: _ => _ end] => destruct t
      end;
  lia.

(** One call of [Read] on a connection that ends with the error [e]:
    either it reports [e], and then nothing was left to read, or it
    returns bytes that are the next ones of the stream, and fewer calls
    remain to be made. *)
Lemma Read_progress (k : nat) (w : wsAdapter) (e : error) :
  (1 <= k)%nat -> consistent w -> readErr (ws w) = Some e ->
  (exists w', Read k w = (Some ([], Some e), w') /\ bytes_left w = [])
  \/ (exists data w',
        Read k w = (Some (data, None), w')
        /\ bytes_left w = data ++ bytes_left w'
        /\ (reads_needed w' < reads_needed w)%nat
        /\ consistent w' /\ readErr (ws w') = Some e).
Proof.
  intros Hk Hc He.
  destruct w as [[ib tn re] rd]. simpl in He. subst re.
  destruct rd as [[[|b u] wh]|].
  - (* the cursor is at the end of its message *)
    destruct wh.
    + right. exists [], (mkAdapter (mkConn ib tn (Some e)) None).
      split; [reflexivity|]. split; [reflexivity|].
      split; [measure|]. split; [exact I | reflexivity].
    + destruct (Hc eq_refl) as [Hi Ht]. simpl in Hi, Ht. subst ib tn.
      destruct (is_EOF e) eqn:E.
      * right. exists [], (mkAdapter (mkConn [] [] (Some e)) None).
        split; [unfold Read, reader_Read; simpl; rewrite E; reflexivity|].
        split; [reflexivity|].
        split; [measure|]. split; [exact I | reflexivity].
      * left. eexists.
        split; [unfold Read, reader_Read; simpl; rewrite E|]; reflexivity.
  - (* unread bytes under the cursor *)
    right.
    exists (firstn k (b :: u)),
      (mkAdapter (mkConn ib tn (Some e)) (Some (mkMR (skipn k (b :: u)) wh))).
    pose proof (firstn_positive _ k (b :: u) Hk ltac:(discriminate)) as P.
    split; [reflexivity|].
    split; [|split; [measure|split; [exact Hc | reflexivity]]].
    unfold bytes_left. cbn [reader ws unread].
    rewrite (app_assoc (firstn k (b :: u))), firstn_skipn. reflexivity.
  - (* no cursor: the next message is taken *)
    destruct ib as [|m rest].
    + destruct tn as [|b t].
      * left. eexists. split; reflexivity.
      * right.
        exists (firstn k (b :: t)),
          (mkAdapter (mkConn [] [] (Some e))
             (Some (mkMR (skipn k (b :: t)) false))).
        pose proof (firstn_positive _ k (b :: t) Hk ltac:(discriminate)) as P.
        split; [reflexivity|].
        split; [|split; [measure|split; [|reflexivity]]].
        -- unfold bytes_left.
           cbn [reader ws inbox torn unread List.concat].
           rewrite !app_nil_r. cbn [app]. rewrite firstn_skipn. reflexivity.
        -- intros _. split; reflexivity.
    + right. destruct m as [|b u].
      * exists [], (mkAdapter (mkConn rest tn (Some e)) None).
        split; [reflexivity|]. split; [reflexivity|].
        split; [measure|]. split; [exact I | reflexivity].
      * exists (firstn k (b :: u)),
          (mkAdapter (mkConn rest tn (Some e))
             (Some (mkMR (skipn k (b :: u)) true))).
        pose proof (firstn_positive _ k (b :: u) Hk ltac:(discriminate)) as P.
        split; [reflexivity|].
        split; [|split; [measure|split; [discriminate | reflexivity]]].
        unfold bytes_left.
        cbn [reader ws inbox torn unread List.concat].
        cbn [app]. rewrite <- app_assoc, (app_assoc (firstn k (b :: u))).
        rewrite firstn_skipn. reflexivity.
Qed.

(** Read to its end, the adapter gives all bytes that were left, in
    order, and then the connection's error. *)
Lemma read_all_complete (k : nat) (e : error) :
  (1 <= k)%nat ->
  forall fuel w,
    (reads_needed w < fuel)%nat -> consistent w ->
    readErr (ws w) = Some e ->
    read_all fuel k w = (bytes_left w, Some e).
Proof.
  intros Hk. induction fuel as [|fuel IH]; intros w Hf Hc He; [lia|].
  simpl read_all.
  destruct (Read_progress k w e Hk Hc He)
    as [(w' & R & B) | (data & w' & R & B & M & C & E)]; rewrite R.
  - rewrite B. reflexivity.
  - rewrite (IH w') by (try lia; assumption).
    rewrite B. reflexivity.
Qed.

End AdapterStream.

(* ===================================================================== *)
(** * Properties of [wsAdapter.Read] *)
(* ===================================================================== *)

(** An error returned by [Read] is the connection's own. *)
Lemma Read_error_is_channel_error
  (k : nat) (w w' : Adapter.wsAdapter) (data : list byte) (e : error) :
  Adapter.Read k w = (Some (data, Some e), w') ->
  Adapter.readErr (Adapter.ws w) = Some e /\ data = [].
Proof.
  unfold Adapter.Read, Adapter.NextReader, Adapter.reader_Read.
  destruct w as [c [r|]]; simpl.
  - destruct r as [[|b u] wh]; simpl.
    + destruct wh; simpl; [discriminate|].
      destruct (Adapter.readErr c) as [e0|]; [|discriminate].
      destruct (is_EOF e0); [discriminate|].
      intros H. injection H as <- <- _. auto.
    + discriminate.
  - destruct c as [[|m rest] tn re]; simpl.
    + destruct tn as [|b tn]; simpl.
      * destruct re as [e0|]; [|discriminate].
        intros H. injection H as <- <- _. auto.
      * discriminate.
    + destruct m; simpl; discriminate.
Qed.

(** C5. One call of [Read] with a buffer of [k] bytes:
    - with unread bytes under the cursor it copies the first [k] of them
      (all of them when they fit), keeps the rest under the cursor, returns
      no error and does not touch the connection, so bytes of two messages
      are never returned by one call;
    - with the cursor at the end of a whole message it clears the cursor and
      returns no bytes and no error; the connection is not touched;
    - with no cursor it takes the next message from the connection and
      copies from it;
    - an error, when one is returned, is the connection's own error: the end
      of a message is never reported as the end of the stream;
    - so a fresh adapter that is read with a buffer of at least one byte
      until an error comes back yields the bytes of all messages, in order
      and without a gap at the message ends, and is ended by the error of
      the connection and by nothing else. *)
Theorem Read_per_call (k : nat) (w : Adapter.wsAdapter) :
  (forall r, Adapter.reader w = Some r -> Adapter.unread r <> [] ->
     Adapter.Read k w =
       (Some (firstn k (Adapter.unread r), None),
        Adapter.mkAdapter (Adapter.ws w)
          (Some (Adapter.mkMR (skipn k (Adapter.unread r))
                   (Adapter.whole r))))
     /\ ((List.length (Adapter.unread r) <= k)%nat ->
           firstn k (Adapter.unread r) = Adapter.unread r))
  /\ (forall r, Adapter.reader w = Some r -> Adapter.unread r = [] ->
        Adapter.whole r = true ->
        Adapter.Read k w = (Some ([], None), Adapter.mkAdapter (Adapter.ws w) None))
  /\ (forall m rest, Adapter.reader w = None ->
        Adapter.inbox (Adapter.ws w) = m :: rest -> m <> [] ->
        Adapter.Read k w =
          (Some (firstn k m, None),
           Adapter.mkAdapter
             (Adapter.mkConn rest (Adapter.torn (Adapter.ws w))
                (Adapter.readErr (Adapter.ws w)))
             (Some (Adapter.mkMR (skipn k m) true))))
  /\ (forall data e w', Adapter.Read k w = (Some (data, Some e), w') ->
        Adapter.readErr (Adapter.ws w) = Some e /\ data = [])
  /\ (forall (msgs : list (list byte)) (cut : list byte) (e : error),
        (1 <= k)%nat ->
        let fresh := Adapter.mkAdapter (Adapter.mkConn msgs cut (Some e)) None in
        Adapter.read_all (S (Adapter.reads_needed fresh)) k fresh
          = (List.concat msgs ++ cut, Some e)).
Proof.
  split; [|split; [|split; [|split]]].
  - intros r Hr Hu. split.
    + unfold Adapter.Read, Adapter.reader_Read. rewrite Hr.
      destruct (Adapter.unread r); [contradiction | reflexivity].
    + intros L. apply firstn_all2. exact L.
  - intros r Hr Hu Hw.
    unfold Adapter.Read, Adapter.reader_Read. rewrite Hr, Hu, Hw. reflexivity.
  - intros m rest Hr Hi Hm.
    unfold Adapter.Read, Adapter.NextReader, Adapter.reader_Read.
    rewrite Hr, Hi. simpl.
    destruct m; [contradiction | reflexivity].
  - intros data e w' H.
    exact (Read_error_is_channel_error k w w' data e H).
  - intros msgs cut e Hk fresh.
    apply (read_all_complete k e Hk); [lia | exact I | reflexivity].
Qed.

(** A stream of three messages, the second one empty, read with a buffer
    of two bytes. *)
Example read_all_three_messages :
  Adapter.read_all 20 2
    (Adapter.mkAdapter
       (Adapter.mkConn [["a"; "b"; "c"]; []; ["d"]]%byte ["e"]%byte
          (Some io_ErrUnexpectedEOF)) None)
  = (["a"; "b"; "c"; "d"; "e"]%byte, Some io_ErrUnexpectedEOF).
Proof. vm_compute. reflexivity. Qed.

(** C9. [Read] returns [(0, nil)] in two situations. After a call that took
    the last unread bytes of a message (they fit the buffer) the cursor is
    still there, at the end of the message; the next call, with any buffer,
    clears it and returns no bytes and no error without asking the
    connection for a message, also when the connection has none to give.
    And a message of length zero taken from the connection is used up by
    the call that took it, which returns no bytes and no error. The
    [io.EOF] of the message reader is turned into a nil error in every
    case. *)
Theorem Read_zero_bytes :
  (forall (k : nat) (c : Adapter.Conn) (bs : list byte),
      bs <> [] -> (List.length bs <= k)%nat ->
      Adapter.Read k (Adapter.mkAdapter c (Some (Adapter.mkMR bs true)))
        = (Some (bs, None),
           Adapter.mkAdapter c (Some (Adapter.mkMR [] true)))
      /\ forall k',
           Adapter.Read k' (Adapter.mkAdapter c (Some (Adapter.mkMR [] true)))
             = (Some ([], None), Adapter.mkAdapter c None))
  /\ (forall (k : nat) (rest : list (list byte)) (tn : list byte)
             (re : option error),
        Adapter.Read k
          (Adapter.mkAdapter (Adapter.mkConn ([] :: rest) tn re) None)
          = (Some ([], None),
             Adapter.mkAdapter (Adapter.mkConn rest tn re) None))
  /\ (forall (k : nat) (c : Adapter.Conn) (r r' : Adapter.messageReader)
             (data : list byte),
        Adapter.reader_Read k c r = (Some (data, Some io_EOF), r') ->
        Adapter.Read k (Adapter.mkAdapter c (Some r))
          = (Some (data, None), Adapter.mkAdapter c None)).
Proof.
  split; [|split].
  - intros k c bs Hne Hk. split; [|reflexivity].
    unfold Adapter.Read, Adapter.reader_Read. simpl.
    destruct bs as [|b bs]; [contradiction|].
    rewrite firstn_all2 by exact Hk. rewrite skipn_all2 by exact Hk.
    reflexivity.
  - reflexivity.
  - intros k c r r' data H. unfold Adapter.Read. simpl. rewrite H. reflexivity.
Qed.

(** The connection is silent, yet the call after the last bytes returns. *)
Example Read_zero_without_blocking :
  let silent := Adapter.mkConn [] [] None in
  let w0 := Adapter.mkAdapter (Adapter.mkConn [["h"; "i"]%byte] [] None) None in
  let w1 := snd (Adapter.Read 2 w0) in
  let w2 := snd (Adapter.Read 2 w1) in
  fst (Adapter.Read 2 w0) = Some (["h"; "i"]%byte, None)
  /\ fst (Adapter.Read 2 w1) = Some ([], None)
  /\ fst (Adapter.Read 2 w2) = None
  /\ Adapter.ws w1 = silent /\ Adapter.cursor w2 = None.
Proof. vm_compute. intuition. Qed.

(** Two messages read with a buffer larger than both: one message per
    call, with an empty read between them. *)
Example Read_across_messages :
  let w0 := Adapter.mkAdapter
              (Adapter.mkConn [["a"; "b"]; ["c"]]%byte []
                 (Some (lib_error "websocket: close 1006"))) None in
  let w1 := snd (Adapter.Read 8 w0) in
  let w2 := snd (Adapter.Read 8 w1) in
  let w3 := snd (Adapter.Read 8 w2) in
  let w4 := snd (Adapter.Read 8 w3) in
  fst (Adapter.Read 8 w0) = Some (["a"; "b"]%byte, None)
  /\ fst (Adapter.Read 8 w1) = Some ([], None)
  /\ fst (Adapter.Read 8 w2) = Some (["c"]%byte, None)
  /\ fst (Adapter.Read 8 w3) = Some ([], None)
  /\ fst (Adapter.Read 8 w4)
     = Some ([], Some (lib_error "websocket: close 1006")).
Proof. vm_compute. intuition. Qed.

(* ===================================================================== *)
(** * Properties of the relay *)
(* ===================================================================== *)

Section RelayFacts.

Import Relay.

(** Closes the goals left by a step of the invariant. *)
Ltac close_inv W :=
  repeat split; intros; try discriminate; auto;
  try (destruct (main _); simpl in *; intuition congruence);
  try (match goal with
       | M : main _ = Waiting |- _ =>
           destruct (W M) as (D' & C1' & C2'); simpl in *;
           try rewrite D'; auto; try lia; try congruence
       end).

Lemma prefix_refl_nil (total : list byte) : prefix [] total.
Proof. exists total. reflexivity. Qed.

Lemma end_Read_chunk (src src' : End) (p : list byte) :
  end_Read src = Some (Chunk p src') ->
  pending src = p :: pending src'
  /\ delivered src' = delivered src /\ is_closed src' = is_closed src.
Proof.
  unfold end_Read. destruct (pending src) as [|q rest].
  - destruct (is_closed src); [discriminate|].
    destruct (ending src); discriminate.
  - destruct (is_closed src && negb (drains src))%bool; [discriminate|].
    intros H. injection H as <- <-. simpl. auto.
Qed.

Lemma end_Write_ok (p : list byte) (dst dst' : End) :
  end_Write p dst = Some dst' ->
  delivered dst' = delivered dst ++ p /\ pending dst' = pending dst
  /\ is_closed dst' = is_closed dst /\ is_closed dst = false.
Proof.
  unfold end_Write. destruct (is_closed dst) eqn:C; [discriminate|].
  destruct (write_err dst); [discriminate|].
  intros H. injection H as <-. simpl. auto.
Qed.

Variables total_s total_c : list byte.

Let relay_inv := Relay.relay_inv total_s total_c.

Lemma relay_inv_init (s_in c_in : list (list byte))
      (s_end c_end s_werr c_werr : option error) :
  total_s = List.concat s_in -> total_c = List.concat c_in ->
  relay_inv (init s_in c_in s_end c_end s_werr c_werr).
Proof.
  intros -> ->.
  unfold relay_inv, Relay.relay_inv, flows, waiting_ok, closing_ok. simpl.
  repeat split; auto using prefix_refl_nil.
Qed.

Lemma relay_inv_step (a : action) (s s' : State) :
  relay_inv s -> step a s = Some s' -> relay_inv s'.
Proof.
  intros ((Pu & Eu) & (Pd & Ed) & W & K) H.
  unfold relay_inv, Relay.relay_inv, flows, waiting_ok, closing_ok,
    both_closed, finished_copiers in *.
  destruct a; simpl in H.
  - (* UpRead *)
    destruct (up s) eqn:U; try discriminate.
    destruct (end_Read (stream s)) as [[p src'|]|] eqn:R; try discriminate;
      injection H as <-; simpl.
    + apply end_Read_chunk in R as (Rp & Rd & Rc).
      rewrite Rd, Rc. rewrite Rp in Eu. simpl in Eu.
      close_inv W.
    + close_inv W.
  - (* UpWrite *)
    destruct (up s) eqn:U; try discriminate.
    destruct (end_Write chunk (conn s)) as [dst'|] eqn:Wr;
      injection H as <-; simpl.
    + apply end_Write_ok in Wr as (Wd & Wp & Wc & _).
      rewrite Wd, Wp, Wc. simpl in Eu. specialize (Eu eq_refl).
      assert (Eu' : total_s = (delivered (conn s) ++ chunk)
                                ++ List.concat (pending (stream s)))
        by (rewrite Eu, <- app_assoc; reflexivity).
      assert (Pu' : prefix (delivered (conn s) ++ chunk) total_s)
        by (eexists; exact Eu').
      close_inv W.
    + close_inv W.
  - (* DownRead *)
    destruct (down s) eqn:U; try discriminate.
    destruct (end_Read (conn s)) as [[p src'|]|] eqn:R; try discriminate;
      injection H as <-; simpl.
    + apply end_Read_chunk in R as (Rp & Rd & Rc).
      rewrite Rd, Rc. rewrite Rp in Ed. simpl in Ed.
      close_inv W.
    + close_inv W.
  - (* DownWrite *)
    destruct (down s) eqn:U; try discriminate.
    destruct (end_Write chunk (stream s)) as [dst'|] eqn:Wr;
      injection H as <-; simpl.
    + apply end_Write_ok in Wr as (Wd & Wp & Wc & _).
      rewrite Wd, Wp, Wc. simpl in Ed. specialize (Ed eq_refl).
      assert (Ed' : total_c = (delivered (stream s) ++ chunk)
                                ++ List.concat (pending (conn s)))
        by (rewrite Ed, <- app_assoc; reflexivity).
      assert (Pd' : prefix (delivered (stream s) ++ chunk) total_c)
        by (eexists; exact Ed').
      close_inv W.
    + close_inv W.
  - (* MainReceive *)
    destruct (main s); try discriminate.
    destruct (done s); try discriminate.
    injection H as <-; simpl. close_inv W.
  - (* MainCloseConn *)
    destruct (main s); try discriminate.
    injection H as <-; simpl. close_inv W.
  - (* MainCloseStream *)
    destruct (main s); try discriminate.
    injection H as <-; simpl. close_inv W.
Qed.

Lemma relay_inv_run (sched : list action) :
  forall s s', relay_inv s -> run sched s = Some s' -> relay_inv s'.
Proof.
  induction sched as [|a sched IH]; intros s s' I H; simpl in H.
  - injection H as <-. exact I.
  - destruct (step a s) as [s1|] eqn:S1; [|discriminate].
    apply (IH s1 s'); [|exact H].
    apply (relay_inv_step a s s1 I S1).
Qed.

End RelayFacts.

Section RelayClaims.

Import Relay.

(** Once both ends are closed no step delivers a byte, and both ends stay
    closed. *)
Lemma closed_pair_delivers_nothing (a : action) (s s' : State) :
  both_closed s -> step a s = Some s' ->
  delivered (conn s') = delivered (conn s)
  /\ delivered (stream s') = delivered (stream s)
  /\ both_closed s'.
Proof.
  intros [Cs Cc] H. unfold both_closed.
  destruct a; simpl in H.
  - destruct (up s); try discriminate.
    destruct (end_Read (stream s)) as [[p src'|]|] eqn:R; try discriminate;
      injection H as <-; simpl; auto.
    apply end_Read_chunk in R as (_ & Rd & Rc). rewrite Rd, Rc. auto.
  - destruct (up s); try discriminate.
    destruct (end_Write chunk (conn s)) as [dst'|] eqn:Wr;
      injection H as <-; simpl; auto.
    apply end_Write_ok in Wr as (_ & _ & _ & Open). congruence.
  - destruct (down s); try discriminate.
    destruct (end_Read (conn s)) as [[p src'|]|] eqn:R; try discriminate;
      injection H as <-; simpl; auto.
    apply end_Read_chunk in R as (_ & Rd & Rc). rewrite Rd, Rc. auto.
  - destruct (down s); try discriminate.
    destruct (end_Write chunk (stream s)) as [dst'|] eqn:Wr;
      injection H as <-; simpl; auto.
    apply end_Write_ok in Wr as (_ & _ & _ & Open). congruence.
  - destruct (main s); try discriminate.
    destruct (done s); try discriminate.
    injection H as <-; simpl; auto.
  - destruct (main s); try discriminate.
    injection H as <-; simpl; auto.
  - destruct (main s); try discriminate.
    injection H as <-; simpl; auto.
Qed.

(** A read from a closed end returns at once. *)
Lemma end_Read_closed (src : End) :
  is_closed src = true ->
  end_Read src = Some Stop
  \/ exists p src', end_Read src = Some (Chunk p src').
Proof.
  intros C. unfold end_Read. rewrite C.
  destruct (pending src) as [|p rest]; [left; reflexivity|].
  destruct (drains src); simpl; [right; eauto | left; reflexivity].
Qed.

(** Once both ends are closed a copier that has not finished can move,
    and finishes with its next read or with the write after it. *)
Lemma closed_pair_unblocks (s : State) :
  both_closed s ->
  (up s = Reading ->
     exists s1, step UpRead s = Some s1
       /\ (up s1 = Finished
           \/ exists s2, step UpWrite s1 = Some s2 /\ up s2 = Finished))
  /\ (forall p, up s = Holding p ->
        exists s1, step UpWrite s = Some s1 /\ up s1 = Finished)
  /\ (down s = Reading ->
        exists s1, step DownRead s = Some s1
          /\ (down s1 = Finished
              \/ exists s2, step DownWrite s1 = Some s2
                            /\ down s2 = Finished))
  /\ (forall p, down s = Holding p ->
        exists s1, step DownWrite s = Some s1 /\ down s1 = Finished).
Proof.
  intros [Cs Cc].
  assert (WC : forall p, end_Write p (conn s) = None)
    by (intros p; unfold end_Write; rewrite Cc; reflexivity).
  assert (WS : forall p, end_Write p (stream s) = None)
    by (intros p; unfold end_Write; rewrite Cs; reflexivity).
  repeat split.
  - intros U. simpl. rewrite U.
    destruct (end_Read_closed (stream s) Cs) as [R | (p & src' & R)];
      rewrite R; eexists; split; try reflexivity; simpl; auto.
    right. rewrite WC. eexists. split; reflexivity.
  - intros p U. simpl. rewrite U, WC. eexists. split; reflexivity.
  - intros U. simpl. rewrite U.
    destruct (end_Read_closed (conn s) Cc) as [R | (p & src' & R)];
      rewrite R; eexists; split; try reflexivity; simpl; auto.
    right. rewrite WS. eexists. split; reflexivity.
  - intros p U. simpl. rewrite U, WS. eexists. split; reflexivity.
Qed.

Lemma upstream_first_run :
  run upstream_first one_byte_each = Some one_byte_each_end.
Proof. vm_compute. reflexivity. Qed.

(** C8 does not hold as stated: the stream's byte is relayed and its end
    is seen, both ends are closed, and the byte that the connection had
    for the stream is never delivered. *)
Lemma relay_drops_pending_bytes :
  ~ (forall (s_in c_in : list (list byte)) (sched : list action)
            (s : State),
        run sched (init s_in c_in (Some io_EOF) (Some io_EOF) None None)
          = Some s ->
        main s = Returned -> up s = Finished -> down s = Finished ->
        delivered (conn s) = List.concat s_in
        /\ delivered (stream s) = List.concat c_in).
Proof.
  intros H.
  destruct (H [["a"%byte]] [["b"%byte]] upstream_first one_byte_each_end
              upstream_first_run eq_refl eq_refl eq_refl) as [_ D].
  discriminate D.
Qed.

(** C8, amended. In every state that a relay pair reaches:
    - what each side has accepted is an initial part of the bytes that
      came from the other side, unmodified and in order (that all of them
      arrive is not promised: what was not yet copied when the first
      direction completed is lost);
    - while [handleStream] waits nothing is closed, and as soon as one
      copy has completed it can take the value from [done], close the
      connection and the stream and return, delivering nothing more;
    - when [handleStream] has returned, both are closed;
    - once both are closed no byte is delivered any more, and a copier
      still running is not blocked and ends with its next read or the
      write that follows it. *)
Theorem relay_pair
  (s_in c_in : list (list byte)) (s_end c_end s_werr c_werr : option error)
  (sched : list action) (s : State) :
  run sched (init s_in c_in s_end c_end s_werr c_werr) = Some s ->
  (prefix (delivered (conn s)) (List.concat s_in)
   /\ prefix (delivered (stream s)) (List.concat c_in))
  /\ (main s = Waiting ->
        is_closed (stream s) = false /\ is_closed (conn s) = false
        /\ ((finished (up s) || finished (down s))%bool = true ->
              exists s',
                run [MainReceive; MainCloseConn; MainCloseStream] s
                  = Some s'
                /\ main s' = Returned /\ both_closed s'
                /\ delivered (conn s') = delivered (conn s)
                /\ delivered (stream s') = delivered (stream s)))
  /\ (main s = Returned -> both_closed s)
  /\ (both_closed s ->
        (forall a s', step a s = Some s' ->
           delivered (conn s') = delivered (conn s)
           /\ delivered (stream s') = delivered (stream s)
           /\ both_closed s')
        /\ (up s = Reading ->
              exists s1, step UpRead s = Some s1
                /\ (up s1 = Finished
                    \/ exists s2, step UpWrite s1 = Some s2
                                  /\ up s2 = Finished))
        /\ (forall p, up s = Holding p ->
              exists s1, step UpWrite s = Some s1 /\ up s1 = Finished)
        /\ (down s = Reading ->
              exists s1, step DownRead s = Some s1
                /\ (down s1 = Finished
                    \/ exists s2, step DownWrite s1 = Some s2
                                  /\ down s2 = Finished))
        /\ (forall p, down s = Holding p ->
              exists s1, step DownWrite s = Some s1
                         /\ down s1 = Finished)).
Proof.
  intros R.
  assert (I : relay_inv (List.concat s_in) (List.concat c_in) s).
  { apply (relay_inv_run (List.concat s_in) (List.concat c_in) sched
             (init s_in c_in s_end c_end s_werr c_werr) s); [|exact R].
    apply relay_inv_init; reflexivity. }
  destruct I as ((Pu & _) & (Pd & _) & W & K).
  split; [split; assumption|].
  split; [|split].
  - intros M. destruct (W M) as (D & Cs & Cc).
    split; [exact Cs|]. split; [exact Cc|].
    intros F. unfold finished_copiers in D.
    simpl. rewrite M.
    destruct (done s) as [|n] eqn:Dn.
    + destruct (finished (up s)), (finished (down s));
        simpl in *; discriminate.
    + eexists. split; [reflexivity|]. simpl.
      unfold both_closed. simpl. auto.
  - intros M. unfold closing_ok in K. rewrite M in K. exact K.
  - intros B. split.
    + intros a s' St. apply (closed_pair_delivers_nothing a s s' B St).
    + apply (closed_pair_unblocks s B).
Qed.

Lemma relay_pair_witness :
  prefix (delivered (conn one_byte_each_end)) ["a"%byte]
  /\ prefix (delivered (stream one_byte_each_end)) ["b"%byte]
  /\ both_closed one_byte_each_end.
Proof.
  destruct (relay_pair [["a"%byte]] [["b"%byte]] (Some io_EOF)
              (Some io_EOF) None None upstream_first one_byte_each_end
              upstream_first_run)
    as ((P1 & P2) & _ & B & _).
  split; [exact P1|]. split; [exact P2|].
  apply B. reflexivity.
Defined.

(** The same pair under a schedule that lets both copiers work before the
    first one completes: everything arrives. *)
Example relay_delivers_both_ways :
  option_map (fun s => (delivered (conn s), delivered (stream s), main s))
    (run [UpRead; DownRead; UpWrite; DownWrite; UpRead; MainReceive;
          MainCloseConn; MainCloseStream; DownRead] one_byte_each)
  = Some (["a"%byte], ["b"%byte], Returned).
Proof. vm_compute. reflexivity. Qed.

End RelayClaims.

(* ===================================================================== *)
(** * Further properties of the tunnel control protocol *)
(* ===================================================================== *)

(** A read that asks for more bytes than the stream will ever deliver:
    it fails with the error that ends the stream ([io.ErrUnexpectedEOF]
    when that error is [io.EOF] and some bytes were read), or never returns
    when the peer stays silent. *)
Lemma ReadAtLeast_short (tl : option error) (min : nat) :
  forall (sg : list (list byte)) (acc : list byte),
    (List.length acc + List.length (List.concat sg) < min)%nat ->
    fst (ReadAtLeast sg tl min acc) =
      match tl with
      | None => Never
      | Some e =>
          if ((0 <? List.length acc + List.length (List.concat sg))%nat
              && is_EOF e)%bool
          then Err io_ErrUnexpectedEOF else Err e
      end.
Proof.
  induction sg as [|s rest IH]; intros acc L; simpl in L |- *.
  - replace (min <=? List.length acc)%nat with false
      by (symmetry; apply Nat.leb_gt; lia).
    rewrite Nat.add_0_r. destruct tl as [e|]; [|reflexivity].
    destruct ((0 <? List.length acc)%nat && is_EOF e)%bool; reflexivity.
  - rewrite length_app in L.
    replace (min <=? List.length acc)%nat with false
      by (symmetry; apply Nat.leb_gt; lia).
    replace (List.length s <=? min - List.length acc)%nat with true
      by (symmetry; apply Nat.leb_le; lia).
    rewrite IH by (rewrite length_app; lia).
    rewrite !length_app, Nat.add_assoc. reflexivity.
Qed.

Lemma ReadFull_short (r : Reader) (n : nat) :
  (List.length (List.concat (segs r)) < n)%nat ->
  (tail r = None -> fst (ReadFull r n) = Never)
  /\ (forall e, tail r = Some e -> exists e', fst (ReadFull r n) = Err e').
Proof.
  intros L. unfold ReadFull.
  pose proof (ReadAtLeast_short (tail r) n (segs r) [] L) as H.
  split.
  - intros T. rewrite H, T. reflexivity.
  - intros e T. rewrite H, T.
    destruct ((0 <? _)%nat && is_EOF e)%bool; eexists; reflexivity.
Qed.

(** What [handleStream] makes of a request header, whatever the length of
    the address. *)
Lemma handleStream_decodes
  (dial : string -> gostring -> Z -> Server.conn + error)
  (wr : list byte -> option error)
  (addr : gostring) (sg : list (list byte)) (tl : option error)
  (more : list byte) :
  List.concat sg = Client.header addr ++ more ->
  exists stream2,
    List.concat (segs stream2)
      = skipn (Z.to_nat (len addr mod 256)) addr ++ more
    /\ tail stream2 = tl
    /\ Server.handleStream dial wr (mkReader sg tl) =
      match dial "tcp" (firstn (Z.to_nat (len addr mod 256)) addr) 10%Z with
      | inr _ =>
          ([DialTimeout "tcp" (firstn (Z.to_nat (len addr mod 256)) addr) 10;
            Log LError "connection failed";
            StreamWrite [x01] (wr [x01]); StreamClose], Server.Returned)
      | inl c =>
          ([DialTimeout "tcp" (firstn (Z.to_nat (len addr mod 256)) addr) 10;
            StreamWrite [x00] (wr [x00]);
            Log LInfo "proxying"], Server.Relaying c stream2)
      end.
Proof.
  intros E. unfold Client.header in E. rewrite <- app_assoc in E.
  set (n := Z.to_nat (len addr mod 256)).
  assert (Hn : (n <= List.length addr)%nat).
  { unfold n, len.
    pose proof (Z.mod_pos_bound (Z.of_nat (List.length addr)) 256 ltac:(lia)).
    pose proof (Z.mod_le (Z.of_nat (List.length addr)) 256 ltac:(lia)
                  ltac:(lia)). lia. }
  destruct (ReadFull_exact (mkReader sg tl) [byte_of_int (len addr)]
              (addr ++ more) E) as (r1 & R1 & C1 & T1).
  rewrite <- (firstn_skipn n addr), <- app_assoc in C1.
  destruct (ReadFull_exact r1 (firstn n addr) (skipn n addr ++ more) C1)
    as (r2 & R2 & C2 & T2).
  rewrite length_firstn, Nat.min_l in R2 by exact Hn.
  exists r2. split; [exact C2|]. split; [simpl in T1; congruence|].
  unfold Server.handleStream. simpl List.length in R1. rewrite R1.
  cbn [nth]. rewrite byte_of_int_wraps. fold n. rewrite R2.
  destruct (dial "tcp" (firstn n addr) 10%Z); reflexivity.
Qed.

(** X1. For an address of any length, the Acceptor dials the first
    [len(addr) mod 256] bytes of it; the bytes of the address beyond them
    stay on the stream, ahead of whatever follows the request, and are the
    first bytes the relay would copy to the target. *)
Theorem request_decoding
  (dial : string -> gostring -> Z -> Server.conn + error)
  (wr : list byte -> option error)
  (addr : gostring) (sg : list (list byte)) (tl : option error)
  (more : list byte) (c : Server.conn) :
  List.concat sg = Client.header addr ++ more ->
  dial "tcp" (firstn (Z.to_nat (len addr mod 256)) addr) 10%Z = inl c ->
  exists stream2,
    List.concat (segs stream2)
      = skipn (Z.to_nat (len addr mod 256)) addr ++ more
    /\ Server.handleStream dial wr (mkReader sg tl) =
         ([DialTimeout "tcp" (firstn (Z.to_nat (len addr mod 256)) addr) 10;
           StreamWrite [x00] (wr [x00]); Log LInfo "proxying"],
          Server.Relaying c stream2).
Proof.
  intros E D.
  destruct (handleStream_decodes dial wr addr sg tl more E)
    as (r2 & C2 & _ & H).
  exists r2. split; [exact C2|]. rewrite H, D. reflexivity.
Qed.

Lemma request_decoding_witness :
  exists stream2,
    List.concat (segs stream2) = repeat "c"%byte 256 ++ []
    /\ Server.handleStream Samples.connects Samples.write_ok
         (mkReader [Client.header Samples2.addr258] None) =
         ([DialTimeout "tcp" ["a"; "b"]%byte 10;
           StreamWrite [x00] None; Log LInfo "proxying"],
          Server.Relaying 7%nat stream2).
Proof.
  apply (request_decoding Samples.connects Samples.write_ok
           Samples2.addr258 [Client.header Samples2.addr258] None [] 7%nat).
  - vm_compute. reflexivity.
  - reflexivity.
Defined.

(** X2. A request that the stream ends before completing (no length byte,
    or fewer address bytes than the length byte announces, followed by the
    end of the stream or an error) is dropped: [handleStream] logs, closes
    the stream and returns, without dialling and without writing a status
    byte. *)
Theorem incomplete_request_dropped
  (dial : string -> gostring -> Z -> Server.conn + error)
  (wr : list byte -> option error)
  (sg : list (list byte)) (e : error) :
  (List.concat sg = []
   \/ exists b rest,
        List.concat sg = b :: rest
        /\ (List.length rest < Z.to_nat (int_of_byte b))%nat) ->
  exists msg,
    Server.handleStream dial wr (mkReader sg (Some e))
      = ([Log LError msg; StreamClose], Server.Returned).
Proof.
  intros [E | (b & rest & E & L)]; unfold Server.handleStream.
  - destruct (ReadFull_short (mkReader sg (Some e)) 1) as [_ H];
      [simpl; rewrite E; simpl; lia|].
    destruct (H e eq_refl) as (e' & R).
    destruct (ReadFull (mkReader sg (Some e)) 1) as [r0 s0].
    simpl in R. subst r0. eexists. reflexivity.
  - destruct (ReadFull_exact (mkReader sg (Some e)) [b] rest E)
      as (r1 & R1 & C1 & T1).
    simpl List.length in R1. rewrite R1. cbn [nth].
    destruct (ReadFull_short r1 (Z.to_nat (int_of_byte b))) as [_ H];
      [rewrite C1; exact L|].
    destruct (H e T1) as (e' & R).
    destruct (ReadFull r1 (Z.to_nat (int_of_byte b))) as [r0 s0].
    simpl in R. subst r0. eexists. reflexivity.
Qed.

Lemma incomplete_request_dropped_witness :
  exists msg,
    Server.handleStream Samples.connects Samples.write_ok
      (mkReader [[x05; "a"; "b"]%byte] (Some io_EOF))
      = ([Log LError msg; StreamClose], Server.Returned).
Proof.
  apply (incomplete_request_dropped Samples.connects Samples.write_ok
           [[x05; "a"; "b"]%byte] io_EOF).
  right. exists x05, ["a"; "b"]%byte. split; [reflexivity|].
  vm_compute. lia.
Defined.

(** X3. There is no deadline on the reads of the request: when the peer
    sends an incomplete request and then stays silent without closing,
    [handleStream] makes no call at all: it does not log, does not dial and
    does not close the stream, and it does not return. *)
Theorem incomplete_request_waits
  (dial : string -> gostring -> Z -> Server.conn + error)
  (wr : list byte -> option error)
  (sg : list (list byte)) :
  (List.concat sg = []
   \/ exists b rest,
        List.concat sg = b :: rest
        /\ (List.length rest < Z.to_nat (int_of_byte b))%nat) ->
  Server.handleStream dial wr (mkReader sg None) = ([], Server.Blocked).
Proof.
  intros [E | (b & rest & E & L)]; unfold Server.handleStream.
  - destruct (ReadFull_short (mkReader sg None) 1) as [H _];
      [simpl; rewrite E; simpl; lia|].
    specialize (H eq_refl).
    destruct (ReadFull (mkReader sg None) 1) as [r0 s0].
    simpl in H. subst r0. reflexivity.
  - destruct (ReadFull_exact (mkReader sg None) [b] rest E)
      as (r1 & R1 & C1 & T1).
    simpl List.length in R1. rewrite R1. cbn [nth].
    destruct (ReadFull_short r1 (Z.to_nat (int_of_byte b))) as [H _];
      [rewrite C1; exact L|].
    specialize (H T1).
    destruct (ReadFull r1 (Z.to_nat (int_of_byte b))) as [r0 s0].
    simpl in H. subst r0. reflexivity.
Qed.

Lemma incomplete_request_waits_witness :
  Server.handleStream Samples.connects Samples.write_ok
    (mkReader [[x05; "a"; "b"]%byte] None) = ([], Server.Blocked).
Proof.
  apply (incomplete_request_waits Samples.connects Samples.write_ok
           [[x05; "a"; "b"]%byte]).
  right. exists x05, ["a"; "b"]%byte. split; [reflexivity|].
  vm_compute. lia.
Defined.

(* ===================================================================== *)
(** * Further properties of [dialThroughTunnel] *)
(* ===================================================================== *)

Section DialFacts.

Variable muxSession_at : nat -> option Client.session.
Variable session_Open : Client.session -> Client.Stream + error.
Variable ctx_Done : nat -> option error.

Let wait_loop := Client.wait_loop muxSession_at session_Open ctx_Done.
Let dialThroughTunnel :=
Client.dialThroughTunnel muxSession_at session_Open ctx_Done.

(** The wait loop, whatever the environment does: it sleeps at most once
  per iteration, calls [Open] at most once, and exactly once when it ends
  with a stream; it closes nothing. *)
Lemma wait_loop_bounds (left : nat) :
forall retries,
  (0 <= Client.slept (fst (wait_loop left retries)) <= Z.of_nat left)%Z
  /\ (Client.opens_called (fst (wait_loop left retries)) <= 1)%nat
  /\ (forall st, snd (wait_loop left retries) = Client.Opened st ->
        Client.opens_called (fst (wait_loop left retries)) = 1%nat)
  /\ (snd (wait_loop left retries) = Client.Exhausted ->
        Client.opens_called (fst (wait_loop left retries)) = 0%nat)
  /\ ~ In StreamClose (fst (wait_loop left retries)).
Proof.
unfold wait_loop.
induction left as [|left IH]; intros retries.
- simpl. repeat split; auto; try lia; discriminate.
- cbn [Client.wait_loop].
  destruct (muxSession_at retries) as [s|].
  + destruct (session_Open s); simpl;
      (split; [lia|]); repeat split; auto; try discriminate;
      intros [H | []]; discriminate H.
  + destruct (ctx_Done retries) as [e|].
    * destruct (retries =? 0)%nat; simpl;
        (split; [lia|]); repeat split; auto; try discriminate;
        try (intros [H | []]; discriminate H).
    * destruct (IH (S retries)) as (Hs & Ho & Hop & Hex & Hc).
      destruct (Client.wait_loop _ _ _ left (S retries)) as [t w].
      cbn [fst snd] in *.
      rewrite slept_app, opens_called_app.
      change (Sleep 1 :: t) with ([Sleep 1] ++ t).
      rewrite slept_app, opens_called_app.
      assert (N : Client.slept
                    (if (retries =? 0)%nat
                     then [Log LInfo "waiting for browser connection..."]
                     else []) = 0%Z
                  /\ Client.opens_called
                       (if (retries =? 0)%nat
                        then [Log LInfo "waiting for browser connection..."]
                        else []) = 0%nat)
        by (destruct (retries =? 0)%nat; split; reflexivity).
      destruct N as [N1 N2]. rewrite N1, N2.
      change (Client.slept [Sleep 1]) with 1%Z.
      change (Client.opens_called [Sleep 1]) with 0%nat.
      split; [lia|]. split; [lia|].
      split; [intros st E; rewrite (Hop st E); reflexivity|].
      split; [intros E; rewrite (Hex E); reflexivity|].
      intros H. apply in_app_or in H as [H | [H | H]].
      -- destruct (retries =? 0)%nat; [destruct H as [H | []]|];
           [discriminate H | contradiction].
      -- discriminate H.
      -- exact (Hc H).
Qed.

(** X4. Whatever the sessions, the context and the streams do,
  [dialThroughTunnel] spends at most 30 seconds in its one-second waits
  and calls [Open] at most once; and when it has not called [Open] it has
  written nothing and returns an error. *)
Theorem dial_bounds (addr : gostring) :
(0 <= Client.slept (fst (dialThroughTunnel addr)) <= 30)%Z
/\ (Client.opens_called (fst (dialThroughTunnel addr)) <= 1)%nat
/\ (Client.opens_called (fst (dialThroughTunnel addr)) = 0%nat ->
      written (fst (dialThroughTunnel addr)) = []
      /\ exists e, snd (dialThroughTunnel addr) = Err e).
Proof.
destruct (wait_loop_bounds 30 0) as (Hs & Ho & Hop & _ & _).
change (Z.of_nat 30) with 30%Z in Hs.
pose proof (wait_loop_writes_nothing muxSession_at session_Open ctx_Done
              30 0) as Hw.
unfold dialThroughTunnel, Client.dialThroughTunnel. fold wait_loop.
unfold wait_loop in *.
destruct (Client.wait_loop _ _ _ 30 0) as [t [st | e |]];
  cbn [fst snd] in *.
- specialize (Hop st eq_refl).
  assert (T : forall extra (r : res Reader),
             Client.slept extra = 0%Z -> Client.opens_called extra = 0%nat ->
             (0 <= Client.slept (t ++ extra) <= 30)%Z
             /\ (Client.opens_called (t ++ extra) <= 1)%nat
             /\ (Client.opens_called (t ++ extra) = 0%nat ->
                   written (t ++ extra) = []
                   /\ exists e, r = Err e)).
  { intros extra r E1 E2. rewrite slept_app, opens_called_app, E1, E2.
    split; [lia|]. split; [lia|]. intros Z0. lia. }
  destruct (Client.Write_result st (Client.header addr)).
  + apply T; reflexivity.
  + destruct (ReadFull (Client.inbound st) 1) as [[status| |] rest].
    * destruct (Byte.eqb (nth 0 status x00) x00); apply T; reflexivity.
    * apply T; reflexivity.
    * apply T; reflexivity.
- split; [lia|]. split; [exact Ho|].
  intros _. split; [exact Hw | eexists; reflexivity].
- split; [lia|]. split; [exact Ho|].
  intros _. split; [exact Hw | eexists; reflexivity].
Qed.

(** X5. Once the wait loop has produced a stream, [dialThroughTunnel]
  writes the request to it and nothing else; it closes the stream, as
  its last call, on every path that returns an error (the write failed,
  the status could not be read, the status is not zero), and it does not
  close it when it returns it to the caller or is still waiting for the
  status byte. *)
Theorem handshake_cleanup
(addr : gostring) (t : list call) (st : Client.Stream) :
wait_loop 30 0 = (t, Client.Opened st) ->
written (fst (dialThroughTunnel addr)) = [Client.header addr]
/\ match snd (dialThroughTunnel addr) with
   | Err _ =>
       exists pre, fst (dialThroughTunnel addr) = pre ++ [StreamClose]
                   /\ ~ In StreamClose pre
   | Ok _ | Never => ~ In StreamClose (fst (dialThroughTunnel addr))
   end.
Proof.
intros W.
destruct (wait_loop_bounds 30 0) as (_ & _ & _ & _ & Hc).
pose proof (wait_loop_writes_nothing muxSession_at session_Open ctx_Done
              30 0) as Hw.
fold wait_loop in Hw. rewrite W in Hc, Hw. cbn [fst] in Hc, Hw.
unfold dialThroughTunnel, Client.dialThroughTunnel. fold wait_loop.
rewrite W.
assert (NoClose : forall extra, ~ In StreamClose extra ->
                    ~ In StreamClose (t ++ extra)).
{ intros extra N H. apply in_app_or in H as [H | H]; tauto. }
assert (Closing : forall mid,
           ~ In StreamClose mid ->
           exists pre, t ++ mid ++ [StreamClose] = pre ++ [StreamClose]
                       /\ ~ In StreamClose pre).
{ intros mid N. exists (t ++ mid). split; [apply app_assoc|].
  apply NoClose. exact N. }
destruct (Client.Write_result st (Client.header addr)) as [e|].
- cbn [fst snd]. rewrite written_app, Hw. split; [reflexivity|].
  apply (Closing [StreamWrite (Client.header addr) (Some e)]).
  intros [H | []]; discriminate H.
- destruct (ReadFull (Client.inbound st) 1) as [[status| |] rest].
  + destruct (Byte.eqb (nth 0 status x00) x00); cbn [fst snd];
      rewrite written_app, Hw; (split; [reflexivity|]).
    * apply NoClose. intros [H | [H | []]]; discriminate H.
    * apply (Closing [StreamWrite (Client.header addr) None]).
      intros [H | []]; discriminate H.
  + cbn [fst snd]. rewrite written_app, Hw. split; [reflexivity|].
    apply (Closing [StreamWrite (Client.header addr) None]).
    intros [H | []]; discriminate H.
  + cbn [fst snd]. rewrite written_app, Hw. split; [reflexivity|].
    apply NoClose. intros [H | []]; discriminate H.
Qed.

End DialFacts.

Lemma handshake_cleanup_witness :
  written (fst (Client.dialThroughTunnel Samples.attached
                  (Samples.opens [x01]) Samples.not_cancelled
                  Samples.short_addr))
    = [Client.header Samples.short_addr]
  /\ exists pre,
       fst (Client.dialThroughTunnel Samples.attached (Samples.opens [x01])
              Samples.not_cancelled Samples.short_addr)
         = pre ++ [StreamClose]
       /\ ~ In StreamClose pre.
Proof.
  exact (handshake_cleanup Samples.attached (Samples.opens [x01])
           Samples.not_cancelled Samples.short_addr
           [SessionOpen] (Samples.answering [x01]) eq_refl).
Defined.

(** X6. The two halves of the handshake agree. Let the request written by
    the Initiator for an address of at most 255 bytes reach [handleStream]
    in any segmentation, and let what [handleStream] writes (and the end of
    the stream, when it returns) be what the Initiator's stream delivers.
    Then [dialThroughTunnel] returns the stream exactly when the Acceptor's
    dial of that address succeeded, and otherwise fails with the error that
    names the address. *)
Theorem handshake_agreement
  (dial : string -> gostring -> Z -> Server.conn + error)
  (mux : nat -> option Client.session)
  (open : Client.session -> Client.Stream + error)
  (ctx : nat -> option error)
  (addr : gostring) (sg : list (list byte)) (t : list call) :
  (List.length addr <= 255)%nat ->
  List.concat sg = Client.header addr ->
  Client.wait_loop mux open ctx 30 0 =
    (t, Client.Opened
          (Client.mkStream
             (mkReader
                (written (fst (Server.handleStream dial (fun _ => None)
                                 (mkReader sg None))))
                (match snd (Server.handleStream dial (fun _ => None)
                              (mkReader sg None)) with
                 | Server.Returned => Some io_EOF
                 | _ => None
                 end))
             (fun _ => None))) ->
  snd (Client.dialThroughTunnel mux open ctx addr) =
    match dial "tcp" addr 10%Z with
    | inl _ => Ok (mkReader [] None)
    | inr _ => Err (Errorf_s "server failed to connect to %s" addr)
    end.
Proof.
  intros L E W.
  destruct (handleStream_decodes dial (fun _ => None) addr sg None [])
    as (r2 & _ & _ & H); [rewrite app_nil_r; exact E|].
  assert (N : Z.to_nat (len addr mod 256) = List.length addr).
  { unfold len. rewrite Z.mod_small by lia. apply Nat2Z.id. }
  rewrite N, firstn_all in H.
  unfold Client.dialThroughTunnel. rewrite W. clear W.
  rewrite H. destruct (dial "tcp" addr 10%Z); reflexivity.
Qed.

Lemma handshake_agreement_witness :
  snd (Client.dialThroughTunnel Samples.attached
         (fun _ => inl (Samples2.reply [[x01]] true))
         Samples.not_cancelled Samples.short_addr)
  = Err (Errorf_s "server failed to connect to %s" Samples.short_addr).
Proof.
  apply (handshake_agreement Samples.refuses Samples.attached
           (fun _ => inl (Samples2.reply [[x01]] true))
           Samples.not_cancelled Samples.short_addr
           [Client.header Samples.short_addr] [SessionOpen]).
  - simpl. lia.
  - reflexivity.
  - reflexivity.
Defined.

(* ===================================================================== *)
(** * Further properties of the websocket adapter *)
(* ===================================================================== *)

(** What a run of [Write] calls leaves on the connection. *)
Lemma write_each_spec (bs : list (list byte)) :
  forall c : AdapterWrite.Conn,
    let ok := match AdapterWrite.lifetime c with
              | None => bs
              | Some n => firstn n bs
              end in
    AdapterWrite.sent (snd (AdapterWrite.write_each bs c))
      = AdapterWrite.sent c ++ ok
    /\ fst (fst (AdapterWrite.write_each bs c)) = map len ok
    /\ (snd (fst (AdapterWrite.write_each bs c)) = None <-> ok = bs).
Proof.
  induction bs as [|b rest IH]; intros c; cbn zeta in *.
  - cbn [AdapterWrite.write_each fst snd].
    destruct (AdapterWrite.lifetime c) as [n|];
      rewrite ?firstn_nil, app_nil_r; repeat split; auto.
  - cbn [AdapterWrite.write_each]. unfold AdapterWrite.Write,
      AdapterWrite.WriteMessage.
    destruct c as [s [[|n]|] f]; cbn [AdapterWrite.lifetime AdapterWrite.sent
      AdapterWrite.failure].
    + simpl. rewrite app_nil_r. repeat split; auto; discriminate.
    + specialize (IH (AdapterWrite.mkConn (s ++ [b]) (Some n) f)).
      cbn [AdapterWrite.lifetime AdapterWrite.sent] in IH.
      destruct IH as (I1 & I2 & I3).
      destruct (AdapterWrite.write_each rest _) as [[ns r] c'].
      cbn [fst snd] in *. rewrite I1, I2, <- app_assoc. simpl.
      repeat split; auto.
      * intros H. f_equal. apply I3. exact H.
      * intros H. apply I3. injection H. auto.
    + specialize (IH (AdapterWrite.mkConn (s ++ [b]) None f)).
      cbn [AdapterWrite.lifetime AdapterWrite.sent] in IH.
      destruct IH as (I1 & I2 & I3).
      destruct (AdapterWrite.write_each rest _) as [[ns r] c'].
      cbn [fst snd] in *. rewrite I1, I2, <- app_assoc. simpl.
      repeat split; auto. intros _. apply I3. reflexivity.
Qed.

(** X7. Write on one adapter, read on the other. Each [Write] that
    succeeds puts exactly one message on the connection, holding exactly
    its slice (an empty slice gives an empty message), and returns the
    length of the slice; a [Write] that fails contributes nothing. When
    these messages are relayed unchanged to a connection that then ends
    with an error, reading the peer's adapter to its end with a buffer of
    any size [k >= 1] yields the slices written, joined in order, and then
    that error. *)
Theorem write_read_roundtrip
  (bs : list (list byte)) (life : option nat) (fail e : error) (k : nat) :
  (1 <= k)%nat ->
  let out := AdapterWrite.write_each bs (AdapterWrite.mkConn [] life fail) in
  let ok := match life with None => bs | Some n => firstn n bs end in
  let peer :=
    Adapter.mkAdapter
      (Adapter.mkConn (AdapterWrite.sent (snd out)) [] (Some e)) None in
  AdapterWrite.sent (snd out) = ok
  /\ fst (fst out) = map len ok
  /\ (snd (fst out) = None <-> ok = bs)
  /\ Adapter.read_all (S (Adapter.reads_needed peer)) k peer
     = (List.concat ok, Some e).
Proof.
  intros Hk out ok peer.
  destruct (write_each_spec bs (AdapterWrite.mkConn [] life fail))
    as (S1 & S2 & S3).
  cbn [AdapterWrite.lifetime AdapterWrite.sent app] in S1, S2, S3.
  fold out in S1, S2, S3. fold ok in S1, S2, S3.
  split; [exact S1|]. split; [exact S2|]. split; [exact S3|].
  unfold peer.
  rewrite (read_all_complete k e Hk); [|lia | exact I | reflexivity].
  unfold Adapter.bytes_left. simpl. rewrite app_nil_r, S1. reflexivity.
Qed.

Lemma write_read_roundtrip_witness :
  let out :=
    AdapterWrite.write_each [["a"; "b"]; []; ["c"]]%byte
      (AdapterWrite.mkConn [] (Some 2%nat) (lib_error "broken pipe")) in
  let peer :=
    Adapter.mkAdapter
      (Adapter.mkConn (AdapterWrite.sent (snd out)) [] (Some io_ErrUnexpectedEOF))
      None in
  AdapterWrite.sent (snd out) = [["a"; "b"]; []]%byte
  /\ fst (fst out) = [2; 0]%Z
  /\ (snd (fst out) = None <->
        [["a"; "b"]; []]%byte = [["a"; "b"]; []; ["c"]]%byte)
  /\ Adapter.read_all (S (Adapter.reads_needed peer)) 1 peer
     = (["a"; "b"]%byte, Some io_ErrUnexpectedEOF).
Proof.
  apply (write_read_roundtrip [["a"; "b"]; []; ["c"]]%byte (Some 2%nat)
           (lib_error "broken pipe") io_ErrUnexpectedEOF 1).
  lia.
Defined.





(* ===================================================================== *)
(** * The accept loop *)
(* ===================================================================== *)

Lemma accept_loop_handled (accepts : list (Acceptor.stream + error)) :
  Acceptor.handled (fst (Acceptor.accept_loop accepts))
    = Acceptor.accepted_first accepts
  /\ ~ In Acceptor.SessionClose (fst (Acceptor.accept_loop accepts))
  /\ ~ In Acceptor.WsClose (fst (Acceptor.accept_loop accepts))
  /\ (snd (Acceptor.accept_loop accepts) = Acceptor.Handler_returned
      <-> exists e, In (inr e) accepts).
Proof.
  induction accepts as [|[st|e] rest IH].
  - simpl. repeat split; try tauto; try discriminate.
    intros (e & []).
  - cbn [Acceptor.accept_loop Acceptor.accepted_first].
    destruct IH as (I1 & I2 & I3 & I4).
    destruct (Acceptor.accept_loop rest) as [t en]. cbn [fst snd] in *.
    cbn [Acceptor.handled]. rewrite I1.
    split; [reflexivity|].
    split; [intros [H | H]; [discriminate H | exact (I2 H)]|].
    split; [intros [H | H]; [discriminate H | exact (I3 H)]|].
    rewrite I4. split; intros (e & H); exists e.
    + right. exact H.
    + destruct H as [H | H]; [discriminate H | exact H].
  - cbn [Acceptor.accept_loop Acceptor.accepted_first fst snd].
    destruct (is_EOF e); cbn [Acceptor.handled];
      (split; [reflexivity|]);
      (split; [intros [H | []]; discriminate H|]);
      (split; [intros [H | []]; discriminate H|]);
      (split; [intros _; exists e; left; reflexivity | reflexivity]).
Qed.

(** X10. [handleWebSocket], after a successful upgrade and session setup:
    the streams handed to [handleStream] are exactly those that
    [session.Accept()] returned before its first error, in that order, and
    none that it would have returned later. The handler returns exactly
    when some [Accept] fails; it then closes the session and after it the
    websocket, as its last two calls and only there. While no [Accept]
    fails it closes neither. *)
Theorem accept_loop_streams (accepts : list (Acceptor.stream + error)) :
  Acceptor.handled (fst (Acceptor.handleWebSocket None None accepts))
    = Acceptor.accepted_first accepts
  /\ ((exists e, In (inr e) accepts) ->
        snd (Acceptor.handleWebSocket None None accepts)
          = Acceptor.Handler_returned
        /\ exists t,
             fst (Acceptor.handleWebSocket None None accepts)
               = t ++ [Acceptor.SessionClose; Acceptor.WsClose]
             /\ ~ In Acceptor.SessionClose t /\ ~ In Acceptor.WsClose t)
  /\ ((forall e, ~ In (inr e) accepts) ->
        snd (Acceptor.handleWebSocket None None accepts)
          = Acceptor.Handler_waits
        /\ ~ In Acceptor.SessionClose
               (fst (Acceptor.handleWebSocket None None accepts))
        /\ ~ In Acceptor.WsClose
               (fst (Acceptor.handleWebSocket None None accepts))).
Proof.
  destruct (accept_loop_handled accepts) as (H1 & H2 & H3 & H4).
  unfold Acceptor.handleWebSocket.
  destruct (Acceptor.accept_loop accepts) as [t [|]]; cbn [fst snd] in *.
  - assert (Hh : forall l, Acceptor.handled
                             (l ++ [Acceptor.SessionClose; Acceptor.WsClose])
                           = Acceptor.handled l).
    { induction l as [|c l IHl]; [reflexivity|].
      destruct c; simpl; rewrite IHl; reflexivity. }
    split; [cbn [Acceptor.handled]; rewrite Hh; exact H1|].
    split.
    + intros _. split; [reflexivity|].
      exists (Acceptor.WLog LInfo "client connected" :: t).
      split; [reflexivity|].
      split; intros [H | H]; try discriminate H; tauto.
    + intros N. destruct (proj1 H4 eq_refl) as (e & He).
      destruct (N e He).
  - split; [exact H1|]. split.
    + intros E. apply H4 in E. discriminate E.
    + intros _. split; [reflexivity|].
      split; intros [H | H]; try discriminate H; tauto.
Qed.

(** Three streams and a failure after the second. *)
Example accept_loop_run :
  Acceptor.handleWebSocket None None [inl 1; inl 2; inr io_EOF; inl 3]%nat
  = ([Acceptor.WLog LInfo "client connected";
      Acceptor.Go_handleStream 1; Acceptor.Go_handleStream 2;
      Acceptor.WLog LInfo "client disconnected";
      Acceptor.SessionClose; Acceptor.WsClose], Acceptor.Handler_returned).
Proof. reflexivity. Qed.

(* ===================================================================== *)
(** * An invariant of the Initiator's session fields *)
(* ===================================================================== *)

Lemma session_fields_step (e : Sessions.event) (c : Sessions.Client) :
  (forall s, Sessions.muxSession c = Some s ->
     In s (Sessions.waiting c) /\ Sessions.wsConn c <> None) ->
  forall s, Sessions.muxSession (Sessions.handle e c) = Some s ->
    In s (Sessions.waiting (Sessions.handle e c))
    /\ Sessions.wsConn (Sessions.handle e c) <> None.
Proof.
  intros I s. destruct e as [w [|]|w]; simpl.
  - intros H. injection H as <-. split; [left; reflexivity | discriminate].
  - intros H. destruct (I s H) as [Hw _]. split; [exact Hw | discriminate].
  - discriminate.
Qed.

(** X11. After any sequence of attaches and close notifications, when
    [c.muxSession] is set it names a session that was created and whose
    handler is still waiting for its close notification, and [c.wsConn] is
    set as well; and a websocket recorded in [c.wsConn] is either the one
    of such a session or one that has already been closed. *)
Theorem session_fields_invariant (es : list Sessions.event) :
  (forall s, Sessions.muxSession (Sessions.run es Sessions.New) = Some s ->
     In s (Sessions.waiting (Sessions.run es Sessions.New))
     /\ Sessions.wsConn (Sessions.run es Sessions.New) <> None)
  /\ (forall w, Sessions.wsConn (Sessions.run es Sessions.New) = Some w ->
        In w (Sessions.waiting (Sessions.run es Sessions.New))
        \/ In w (Sessions.closed (Sessions.run es Sessions.New))).
Proof.
  unfold Sessions.run.
  assert (G : forall c,
             ((forall s, Sessions.muxSession c = Some s ->
                 In s (Sessions.waiting c) /\ Sessions.wsConn c <> None)
              /\ (forall w, Sessions.wsConn c = Some w ->
                    In w (Sessions.waiting c) \/ In w (Sessions.closed c))) ->
             let c' := fold_left (fun c e => Sessions.handle e c) es c in
             (forall s, Sessions.muxSession c' = Some s ->
                In s (Sessions.waiting c') /\ Sessions.wsConn c' <> None)
             /\ (forall w, Sessions.wsConn c' = Some w ->
                   In w (Sessions.waiting c') \/ In w (Sessions.closed c'))).
  { induction es as [|e es IH]; intros c [I1 I2]; [split; assumption|].
    simpl. apply IH. split.
    - apply session_fields_step. exact I1.
    - intros w. destruct e as [x [|]|x]; simpl.
      + intros H. injection H as <-. left. left. reflexivity.
      + intros H. injection H as <-. right. left. reflexivity.
      + discriminate. }
  apply G. split; intros x H; discriminate H.
Qed.

(** A failed session setup leaves the earlier session current although its
    websocket has just been closed. *)
Example failed_setup_keeps_old_session :
  let c := Sessions.run [Sessions.Attach 1 true; Sessions.Attach 2 false]
             Sessions.New in
  Sessions.muxSession c = Some 1%nat /\ Sessions.wsConn c = Some 2%nat
  /\ Sessions.usable 1 c = false /\ In 2%nat (Sessions.closed c).
Proof. vm_compute. intuition. Qed.

(* ===================================================================== *)
(** * Further properties of the relay *)
(* ===================================================================== *)

Section RelayMore.

Import Relay RelayBound.

(** Solves the arithmetic left by one step. *)
Ltac count_step :=
unfold finished_copiers, received, steps_left, copier_steps, main_steps
  in *;
cbn [up down done main stream conn finished pending] in *;
try lia.

Lemma accounting_step (a : action) (s s' : State) :
done s + received (main s) = finished_copiers s ->
step a s = Some s' ->
done s' + received (main s') = finished_copiers s'.
Proof.
intros A H. destruct a; simpl in H.
- destruct (up s) eqn:U; try discriminate.
  destruct (end_Read (stream s)) as [[p src'|]|]; try discriminate;
    injection H as <-; count_step; rewrite U in A; simpl in A; lia.
- destruct (up s) eqn:U; try discriminate.
  destruct (end_Write chunk (conn s)) as [dst'|];
    injection H as <-; count_step; rewrite U in A; simpl in A; lia.
- destruct (down s) eqn:U; try discriminate.
  destruct (end_Read (conn s)) as [[p src'|]|]; try discriminate;
    injection H as <-; count_step; rewrite U in A; simpl in A; lia.
- destruct (down s) eqn:U; try discriminate.
  destruct (end_Write chunk (stream s)) as [dst'|];
    injection H as <-; count_step; rewrite U in A; simpl in A; lia.
- destruct (main s) eqn:M; try discriminate.
  destruct (done s) eqn:D; try discriminate.
  injection H as <-; count_step.
- destruct (main s) eqn:M; try discriminate.
  injection H as <-; count_step.
- destruct (main s) eqn:M; try discriminate.
  injection H as <-; count_step.
Qed.

(** X12. The channel [done] never holds more values than its capacity of
  two, so neither copier is ever held up by its send. At every moment
  the values queued, plus the one [handleStream] has taken once it has
  stopped waiting, are as many as the copiers that have finished. *)
Theorem done_within_capacity
(s_in c_in : list (list byte)) (s_end c_end s_werr c_werr : option error)
(sched : list action) (s : State) :
run sched (init s_in c_in s_end c_end s_werr c_werr) = Some s ->
done s + received (main s) = finished_copiers s /\ done s <= 2.
Proof.
intros R.
assert (G : forall sched s0 s1,
           done s0 + received (main s0) = finished_copiers s0 ->
           run sched s0 = Some s1 ->
           done s1 + received (main s1) = finished_copiers s1).
{ clear. induction sched as [|a sched IH]; intros s0 s1 A H; simpl in H.
  - injection H as <-. exact A.
  - destruct (step a s0) as [s2|] eqn:S2; [|discriminate].
    apply (IH s2 s1); [|exact H]. apply (accounting_step a s0 s2 A S2). }
assert (A := G sched (init s_in c_in s_end c_end s_werr c_werr) s
               eq_refl R).
split; [exact A|].
unfold finished_copiers in A.
destruct (finished (up s)), (finished (down s)); lia.
Qed.

Lemma done_within_capacity_witness :
done one_byte_each_end + received (main one_byte_each_end)
  = finished_copiers one_byte_each_end
/\ done one_byte_each_end <= 2.
Proof.
exact (done_within_capacity [["a"%byte]] [["b"%byte]] (Some io_EOF)
         (Some io_EOF) None None upstream_first one_byte_each_end
         upstream_first_run).
Defined.

Lemma end_Read_stop_open (src : End) :
end_Read src = Some Stop -> is_closed src = false -> pending src = [].
Proof.
unfold end_Read. intros H C. rewrite C in H.
destruct (pending src); [reflexivity | discriminate H].
Qed.

Lemma end_Write_open (p : list byte) (dst : End) :
is_closed dst = false -> write_err dst = None -> end_Write p dst <> None.
Proof.
intros C W. unfold end_Write. rewrite C, W. discriminate.
Qed.

Lemma end_Read_write_err (src src' : End) (p : list byte) :
end_Read src = Some (Chunk p src') -> write_err src' = write_err src.
Proof.
unfold end_Read. destruct (pending src) as [|q rest].
- destruct (is_closed src); [discriminate|].
  destruct (ending src); discriminate.
- destruct (is_closed src && negb (drains src))%bool; [discriminate|].
  intros H. injection H as _ <-. reflexivity.
Qed.

Lemma end_Write_write_err (p : list byte) (dst dst' : End) :
end_Write p dst = Some dst' -> write_err dst' = write_err dst.
Proof.
unfold end_Write. destruct (is_closed dst); [discriminate|].
destruct (write_err dst); [discriminate|].
intros H. injection H as <-. reflexivity.
Qed.

Variables total_s total_c : list byte.

Lemma complete_step (a : action) (s s' : State) :
relay_inv total_s total_c s ->
complete_if_first total_s (conn s) (up s) (main s) ->
complete_if_first total_c (stream s) (down s) (main s) ->
step a s = Some s' ->
complete_if_first total_s (conn s') (up s') (main s')
/\ complete_if_first total_c (stream s') (down s') (main s').
Proof.
intros ((_ & Eu) & (_ & Ed) & W & _) Cu Cd H.
unfold complete_if_first, waiting_ok in *.
destruct a; simpl in H.
- destruct (up s) eqn:U; try discriminate.
  destruct (end_Read (stream s)) as [[p src'|]|] eqn:R; try discriminate;
    injection H as <-; cbn [up down main stream conn].
  + rewrite (end_Read_write_err _ _ _ R).
    apply end_Read_chunk in R as (_ & Rd & _). rewrite Rd.
    split; [discriminate | exact Cd].
  + split; [|exact Cd]. intros _ We M.
    destruct (W M) as (_ & Cs & _).
    rewrite (end_Read_stop_open _ R Cs) in Eu.
    rewrite (Eu eq_refl). simpl. rewrite app_nil_r. reflexivity.
- destruct (up s) eqn:U; try discriminate.
  destruct (end_Write chunk (conn s)) as [dst'|] eqn:Wr;
    injection H as <-; cbn [up down main stream conn].
  + split; [discriminate | exact Cd].
  + split; [|exact Cd]. intros _ We M.
    destruct (W M) as (_ & _ & Cc).
    destruct (end_Write_open chunk (conn s) Cc We Wr).
- destruct (down s) eqn:U; try discriminate.
  destruct (end_Read (conn s)) as [[p src'|]|] eqn:R; try discriminate;
    injection H as <-; cbn [up down main stream conn].
  + rewrite (end_Read_write_err _ _ _ R).
    apply end_Read_chunk in R as (_ & Rd & _). rewrite Rd.
    split; [exact Cu | discriminate].
  + split; [exact Cu|]. intros _ We M.
    destruct (W M) as (_ & _ & Cc).
    rewrite (end_Read_stop_open _ R Cc) in Ed.
    rewrite (Ed eq_refl). simpl. rewrite app_nil_r. reflexivity.
- destruct (down s) eqn:U; try discriminate.
  destruct (end_Write chunk (stream s)) as [dst'|] eqn:Wr;
    injection H as <-; cbn [up down main stream conn].
  + split; [exact Cu | discriminate].
  + split; [exact Cu|]. intros _ We M.
    destruct (W M) as (_ & Cs & _).
    destruct (end_Write_open chunk (stream s) Cs We Wr).
- destruct (main s); try discriminate.
  destruct (done s); try discriminate.
  injection H as <-; cbn [up down main stream conn].
  split; intros _ _ M; discriminate M.
- destruct (main s); try discriminate.
  injection H as <-; cbn [up down main stream conn].
  split; intros _ _ M; discriminate M.
- destruct (main s); try discriminate.
  injection H as <-; cbn [up down main stream conn].
  split; intros _ _ M; discriminate M.
Qed.

Lemma complete_run (sched : list action) :
forall s s',
  relay_inv total_s total_c s ->
  complete_if_first total_s (conn s) (up s) (main s) ->
  complete_if_first total_c (stream s) (down s) (main s) ->
  run sched s = Some s' ->
  complete_if_first total_s (conn s') (up s') (main s')
  /\ complete_if_first total_c (stream s') (down s') (main s').
Proof.
induction sched as [|a sched IH]; intros s s' I Cu Cd H; simpl in H.
- injection H as <-. split; assumption.
- destruct (step a s) as [s1|] eqn:S1; [|discriminate].
  destruct (complete_step a s s1 I Cu Cd S1) as [Cu1 Cd1].
  apply (IH s1 s'); try assumption.
  apply (relay_inv_step total_s total_c a s s1 I S1).
Qed.

End RelayMore.

Section RelayMoreClaims.

Import Relay RelayBound.

(** X13. The direction that completes first is complete. While
  [handleStream] is still waiting, a copier that has finished and whose
  destination accepts writes has delivered every byte its source had:
  bytes can be lost only in the direction that was still running when
  the pair was closed, or by a failing write. *)
Theorem first_direction_complete
(s_in c_in : list (list byte)) (s_end c_end s_werr c_werr : option error)
(sched : list action) (s : State) :
run sched (init s_in c_in s_end c_end s_werr c_werr) = Some s ->
main s = Waiting ->
(up s = Finished -> c_werr = None ->
   delivered (conn s) = List.concat s_in)
/\ (down s = Finished -> s_werr = None ->
      delivered (stream s) = List.concat c_in).
Proof.
intros R M.
assert (I0 : relay_inv (List.concat s_in) (List.concat c_in)
               (init s_in c_in s_end c_end s_werr c_werr))
  by (apply relay_inv_init; reflexivity).
assert (We : forall sched s0 s1,
           run sched s0 = Some s1 ->
           write_err (conn s1) = write_err (conn s0)
           /\ write_err (stream s1) = write_err (stream s0)).
{ clear. induction sched as [|a sched IH]; intros s0 s1 H; simpl in H.
  - injection H as <-. split; reflexivity.
  - destruct (step a s0) as [s2|] eqn:S2; [|discriminate].
    destruct (IH s2 s1 H) as [E1 E2]. rewrite E1, E2. clear IH H E1 E2.
    destruct a; simpl in S2.
    + destruct (up s0); try discriminate.
      destruct (end_Read (stream s0)) as [[p src'|]|] eqn:Rd;
        try discriminate; injection S2 as <-; simpl; auto.
      split; [reflexivity | apply (end_Read_write_err _ _ _ Rd)].
    + destruct (up s0); try discriminate.
      destruct (end_Write chunk (conn s0)) as [dst'|] eqn:Wr;
        injection S2 as <-; simpl; auto.
      split; [apply (end_Write_write_err _ _ _ Wr) | reflexivity].
    + destruct (down s0); try discriminate.
      destruct (end_Read (conn s0)) as [[p src'|]|] eqn:Rd;
        try discriminate; injection S2 as <-; simpl; auto.
      split; [apply (end_Read_write_err _ _ _ Rd) | reflexivity].
    + destruct (down s0); try discriminate.
      destruct (end_Write chunk (stream s0)) as [dst'|] eqn:Wr;
        injection S2 as <-; simpl; auto.
      split; [reflexivity | apply (end_Write_write_err _ _ _ Wr)].
    + destruct (main s0); try discriminate.
      destruct (done s0); try discriminate.
      injection S2 as <-; simpl; auto.
    + destruct (main s0); try discriminate.
      injection S2 as <-; simpl; auto.
    + destruct (main s0); try discriminate.
      injection S2 as <-; simpl; auto. }
destruct (We sched _ s R) as [Wc Ws]. simpl in Wc, Ws.
destruct (complete_run (List.concat s_in) (List.concat c_in) sched
            (init s_in c_in s_end c_end s_werr c_werr) s I0)
  as [Cu Cd];
  [intros F; simpl in F; discriminate F
  |intros F; simpl in F; discriminate F
  |exact R|].
unfold complete_if_first in Cu, Cd.
split.
- intros U E. apply Cu; [exact U | congruence | exact M].
- intros D E. apply Cd; [exact D | congruence | exact M].
Qed.

Lemma first_direction_complete_witness :
delivered (conn Samples2.upstream_done) = List.concat [["a"%byte]].
Proof.
assert (R : run [UpRead; UpWrite; UpRead] one_byte_each
            = Some Samples2.upstream_done)
  by (vm_compute; reflexivity).
exact (proj1 (first_direction_complete [["a"%byte]] [["b"%byte]]
                (Some io_EOF) (Some io_EOF) None None
                [UpRead; UpWrite; UpRead] Samples2.upstream_done R eq_refl)
         eq_refl eq_refl).
Defined.

Lemma steps_left_step (a : action) (s s' : State) :
step a s = Some s' -> steps_left s' < steps_left s.
Proof.
intros H. unfold steps_left. destruct a; simpl in H.
- destruct (up s) eqn:U; try discriminate.
  destruct (end_Read (stream s)) as [[p src'|]|] eqn:R; try discriminate;
    injection H as <-; cbn [up down main stream conn copier_steps].
  + apply end_Read_chunk in R as (Rp & _ & _). rewrite Rp.
    cbn [List.length]. lia.
  + lia.
- destruct (up s) eqn:U; try discriminate.
  destruct (end_Write chunk (conn s)) as [dst'|] eqn:Wr;
    injection H as <-; cbn [up down main stream conn copier_steps].
  + apply end_Write_ok in Wr as (_ & Wp & _ & _).
    assert (E : copier_steps (down s) dst' = copier_steps (down s) (conn s))
      by (unfold copier_steps; rewrite Wp; reflexivity).
    rewrite E. lia.
  + lia.
- destruct (down s) eqn:U; try discriminate.
  destruct (end_Read (conn s)) as [[p src'|]|] eqn:R; try discriminate;
    injection H as <-; cbn [up down main stream conn copier_steps].
  + apply end_Read_chunk in R as (Rp & _ & _). rewrite Rp.
    cbn [List.length]. lia.
  + lia.
- destruct (down s) eqn:U; try discriminate.
  destruct (end_Write chunk (stream s)) as [dst'|] eqn:Wr;
    injection H as <-; cbn [up down main stream conn copier_steps].
  + apply end_Write_ok in Wr as (_ & Wp & _ & _).
    assert (E : copier_steps (up s) dst' = copier_steps (up s) (stream s))
      by (unfold copier_steps; rewrite Wp; reflexivity).
    rewrite E. lia.
  + lia.
- destruct (main s) eqn:M; try discriminate.
  destruct (done s); try discriminate.
  injection H as <-; cbn [up down main stream conn main_steps]. lia.
- destruct (main s) eqn:M; try discriminate.
  injection H as <-; cbn [up down main stream conn main_steps].
  assert (E : copier_steps (down s) (end_Close (conn s))
              = copier_steps (down s) (conn s)) by reflexivity.
  rewrite E. lia.
- destruct (main s) eqn:M; try discriminate.
  injection H as <-; cbn [up down main stream conn main_steps].
  assert (E : copier_steps (up s) (end_Close (stream s))
              = copier_steps (up s) (stream s)) by reflexivity.
  rewrite E. lia.
Qed.

(** X14. A relay pair over finite input cannot go on for ever: every
  step uses up part of a budget fixed by the number of segments the two
  sides deliver, so no schedule takes more than two steps per segment
  and five more (the two last reads and the three steps of
  [handleStream]). *)
Theorem relay_steps_bounded
(s_in c_in : list (list byte)) (s_end c_end s_werr c_werr : option error)
(sched : list action) (s : State) :
run sched (init s_in c_in s_end c_end s_werr c_werr) = Some s ->
List.length sched + steps_left s
  <= 2 * (List.length s_in + List.length c_in) + 5.
Proof.
intros R.
assert (G : forall sched s0 s1,
           run sched s0 = Some s1 ->
           List.length sched + steps_left s1 <= steps_left s0).
{ clear. induction sched as [|a sched IH]; intros s0 s1 H; simpl in H.
  - injection H as <-. simpl. lia.
  - destruct (step a s0) as [s2|] eqn:S2; [|discriminate].
    pose proof (steps_left_step a s0 s2 S2).
    pose proof (IH s2 s1 H). simpl. lia. }
pose proof (G sched _ s R) as B.
unfold steps_left at 2 in B. simpl in B. lia.
Qed.

Lemma relay_steps_bounded_witness :
List.length upstream_first + steps_left one_byte_each_end
  <= 2 * (List.length [["a"%byte]] + List.length [["b"%byte]]) + 5.
Proof.
exact (relay_steps_bounded [["a"%byte]] [["b"%byte]] (Some io_EOF)
         (Some io_EOF) None None upstream_first one_byte_each_end
         upstream_first_run).
Defined.

End RelayMoreClaims.

(* ===================================================================== *)
(** * Properties of the relay page *)
(* ===================================================================== *)

Section BrowserFacts.

Import Browser.

Lemma nth_error_replace_same (l : list WebSocket) :
forall i w, i < List.length l -> nth_error (replace i w l) i = Some w.
Proof.
induction l as [|h t IH]; intros i w L; simpl in L; [lia|].
destruct i as [|i]; simpl; [reflexivity|]. apply IH. lia.
Qed.

Lemma nth_error_replace_other (l : list WebSocket) :
forall i j w, i <> j -> nth_error (replace i w l) j = nth_error l j.
Proof.
induction l as [|h t IH]; intros i j w N; [destruct i; reflexivity|].
destruct i as [|i], j as [|j]; simpl; try reflexivity; try congruence.
apply IH. congruence.
Qed.

Lemma get_modify (i j : nat) (f : WebSocket -> WebSocket) (p : Page) :
get j (modify i f p)
  = if (i =? j)%nat then option_map f (get i p) else get j p.
Proof.
unfold modify, get.
destruct (nth_error (sockets p) i) as [w|] eqn:E.
- simpl. destruct (Nat.eqb_spec i j) as [<-|N].
  + rewrite ?E. simpl. apply nth_error_replace_same.
    apply nth_error_Some. congruence.
  + apply nth_error_replace_other. exact N.
- destruct (Nat.eqb_spec i j) as [<-|N]; rewrite ?E; reflexivity.
Qed.

Lemma modify_fields (i : nat) (f : WebSocket -> WebSocket) (p : Page) :
localWS (modify i f p) = localWS p
/\ serverWS (modify i f p) = serverWS p
/\ bytesSent (modify i f p) = bytesSent p
/\ bytesReceived (modify i f p) = bytesReceived p.
Proof. unfold modify. destruct (get i p); repeat split. Qed.

Lemma relaying_distinct (l s : nat) (p : Page) : relaying l s p -> l <> s.
Proof.
intros (_ & _ & (w & G & _ & M) & (w' & G' & _ & M')) E. subst s.
congruence.
Qed.

(** One message from the local side while the relay is at work. *)
Lemma relaying_from_local (l s : nat) (d : list byte) (p : Page) :
relaying l s p ->
dispatch (Message l d) p = add_bytesSent (len d) (modify s (send d) p).
Proof.
intros (L & S & (w & G & St & M) & (w' & G' & St' & M')).
unfold dispatch. rewrite G, St, M. simpl. rewrite S.
unfold is_open. rewrite G', St'. reflexivity.
Qed.

Lemma relaying_from_server (l s : nat) (d : list byte) (p : Page) :
relaying l s p ->
dispatch (Message s d) p
  = add_bytesReceived (len d) (modify l (send d) p).
Proof.
intros (L & S & (w & G & St & M) & (w' & G' & St' & M')).
unfold dispatch. rewrite G', St', M'. simpl. rewrite L.
unfold is_open. rewrite G, St. reflexivity.
Qed.

(** Sending on one of the two sockets keeps the relay at work and adds
  the data to that socket's outbox only. *)
Lemma relaying_send (l s i : nat) (d : list byte) (p : Page) :
relaying l s p -> i = l \/ i = s ->
relaying l s (modify i (send d) p)
/\ outbox_of i (modify i (send d) p) = outbox_of i p ++ [d]
/\ (forall j, j <> i ->
      outbox_of j (modify i (send d) p) = outbox_of j p).
Proof.
intros R Hi. pose proof (relaying_distinct l s p R) as N.
destruct R as (L & S & (w & G & St & M) & (w' & G' & St' & M')).
destruct (modify_fields i (send d) p) as (F1 & F2 & _ & _).
split; [|split].
- unfold relaying. rewrite F1, F2, !get_modify.
  split; [exact L|]. split; [exact S|].
  destruct Hi as [-> | ->].
  + rewrite Nat.eqb_refl. replace (l =? s)%nat with false
      by (symmetry; apply Nat.eqb_neq; exact N).
    rewrite G. simpl. split; eexists; eauto.
  + rewrite Nat.eqb_refl. replace (s =? l)%nat with false
      by (symmetry; apply Nat.eqb_neq; congruence).
    rewrite G'. simpl. split; eexists; eauto.
- unfold outbox_of. rewrite get_modify, Nat.eqb_refl.
  destruct Hi as [-> | ->]; [rewrite G | rewrite G']; reflexivity.
- intros j Nj. unfold outbox_of. rewrite get_modify.
  replace (i =? j)%nat with false
    by (symmetry; apply Nat.eqb_neq; congruence).
  reflexivity.
Qed.

End BrowserFacts.

Section BrowserClaims.

Import Browser.

(** X15. While the relay is at work ([localWS] and [serverWS] open, the
  two message handlers installed), every binary message that arrives on
  one socket is sent on the other, unchanged and in the order of
  arrival, whatever the interleaving of the two directions; nothing else
  is sent; [bytesSent] grows by the total length of the messages that
  came from the local side and [bytesReceived] by that of the messages
  from the server side; and the relay is still at work afterwards. *)
Theorem relay_page_forwards
(l s : nat) (ms : list (origin * list byte)) (p : Page) :
relaying l s p ->
relaying l s (run (arrivals l s ms) p)
/\ outbox_of s (run (arrivals l s ms) p)
   = outbox_of s p ++ from FromLocal ms
/\ outbox_of l (run (arrivals l s ms) p)
   = outbox_of l p ++ from FromServer ms
/\ bytesSent (run (arrivals l s ms) p)
   = (bytesSent p + total_len (from FromLocal ms))%Z
/\ bytesReceived (run (arrivals l s ms) p)
   = (bytesReceived p + total_len (from FromServer ms))%Z.
Proof.
revert p. induction ms as [|[o d] ms IH]; intros p R.
- simpl. rewrite !app_nil_r. split; [exact R|]. repeat split; lia.
- pose proof (relaying_distinct l s p R) as N.
  unfold run, arrivals in *. cbn [map fold_left fst snd].
  destruct o.
  + rewrite (relaying_from_local l s d p R).
    destruct (relaying_send l s s d p R (or_intror eq_refl))
      as (R' & O1 & O2).
    destruct (modify_fields s (send d) p) as (_ & _ & F3 & F4).
    destruct (IH (add_bytesSent (len d) (modify s (send d) p)))
      as (I1 & I2 & I3 & I4 & I5); [exact R'|].
    split; [exact I1|].
    split; [rewrite I2; cbn [from];
            change (outbox_of s (add_bytesSent (len d)
                                   (modify s (send d) p)))
              with (outbox_of s (modify s (send d) p));
            rewrite O1, <- app_assoc; reflexivity|].
    split; [rewrite I3; cbn [from];
            change (outbox_of l (add_bytesSent (len d)
                                   (modify s (send d) p)))
              with (outbox_of l (modify s (send d) p));
            rewrite (O2 l N); reflexivity|].
    split; [rewrite I4; cbn [from total_len bytesSent add_bytesSent];
            rewrite F3; lia|].
    rewrite I5. cbn [from bytesReceived add_bytesSent]. rewrite F4.
    reflexivity.
  + rewrite (relaying_from_server l s d p R).
    destruct (relaying_send l s l d p R (or_introl eq_refl))
      as (R' & O1 & O2).
    destruct (modify_fields l (send d) p) as (_ & _ & F3 & F4).
    destruct (IH (add_bytesReceived (len d) (modify l (send d) p)))
      as (I1 & I2 & I3 & I4 & I5); [exact R'|].
    split; [exact I1|].
    split; [rewrite I2; cbn [from];
            change (outbox_of s (add_bytesReceived (len d)
                                   (modify l (send d) p)))
              with (outbox_of s (modify l (send d) p));
            rewrite (O2 s (not_eq_sym N)); reflexivity|].
    split; [rewrite I3; cbn [from];
            change (outbox_of l (add_bytesReceived (len d)
                                   (modify l (send d) p)))
              with (outbox_of l (modify l (send d) p));
            rewrite O1, <- app_assoc; reflexivity|].
    split; [rewrite I4; cbn [from bytesSent add_bytesReceived];
            rewrite F3; reflexivity|].
    rewrite I5. cbn [from total_len bytesReceived add_bytesReceived].
    rewrite F4. lia.
Qed.

End BrowserClaims.

Section BrowserMore.

Import Browser.

Lemma started_relaying : relaying 0 1 started.
Proof.
unfold relaying. vm_compute.
split; [reflexivity|]. split; [reflexivity|].
split; eexists; repeat split.
Qed.

Lemma relay_page_forwards_witness :
outbox_of 1 (run (arrivals 0 1 [(FromLocal, ["a"%byte]);
                                (FromServer, ["b"%byte]);
                                (FromLocal, ["c"; "d"]%byte)]) started)
  = outbox_of 1 started ++ [["a"%byte]; ["c"; "d"]%byte]
/\ bytesSent (run (arrivals 0 1 [(FromLocal, ["a"%byte]);
                                 (FromServer, ["b"%byte]);
                                 (FromLocal, ["c"; "d"]%byte)]) started)
   = (bytesSent started + 3)%Z.
Proof.
destruct (relay_page_forwards 0 1
            [(FromLocal, ["a"%byte]); (FromServer, ["b"%byte]);
             (FromLocal, ["c"; "d"]%byte)] started started_relaying)
  as (_ & O & _ & B & _).
split; [exact O | exact B].
Defined.

Lemma run_app (es1 es2 : list event) (p : Page) :
run (es1 ++ es2) p = run es2 (run es1 p).
Proof. unfold run. apply fold_left_app. Qed.

(** A message for a socket whose [onmessage] is [null] changes nothing. *)
Lemma message_without_handler
(i : nat) (d : list byte) (p : Page) (w : WebSocket) :
get i p = Some w -> onmessage w = None -> dispatch (Message i d) p = p.
Proof.
intros G M. unfold dispatch. rewrite G, M.
destruct (state w); reflexivity.
Qed.

(** X16. What the local side sends before the server connection is
  established is lost: between the opening of the local socket and that
  of the server socket no message handler is installed, so the messages
  that arrive meanwhile change nothing on the page; they are neither
  forwarded when the server socket opens nor counted. *)
Theorem early_messages_lost (ds : list (list byte)) :
run (Opened 0 :: map (Message 0) ds ++ [Opened 1]) loaded = started
/\ outbox_of 1
     (run (Opened 0 :: map (Message 0) ds ++ [Opened 1]) loaded) = []
/\ bytesSent
     (run (Opened 0 :: map (Message 0) ds ++ [Opened 1]) loaded) = 0%Z.
Proof.
assert (G0 : get 0 (run [Opened 0] loaded)
             = Some (mkWS LocalSide OPEN (Some L_open) None (Some L_error)
                       (Some L_close) []))
  by (vm_compute; reflexivity).
assert (D : run (map (Message 0) ds) (run [Opened 0] loaded)
            = run [Opened 0] loaded).
{ induction ds as [|d ds IH]; [reflexivity|].
  change (map (Message 0) (d :: ds))
    with ([Message 0 d] ++ map (Message 0) ds).
  rewrite run_app.
  change (run [Message 0 d] (run [Opened 0] loaded))
    with (dispatch (Message 0 d) (run [Opened 0] loaded)).
  rewrite (message_without_handler 0 d _ _ G0 eq_refl). exact IH. }
assert (E : run (Opened 0 :: map (Message 0) ds ++ [Opened 1]) loaded
            = started).
{ change (Opened 0 :: map (Message 0) ds ++ [Opened 1])
    with ([Opened 0] ++ map (Message 0) ds ++ [Opened 1]).
  rewrite !run_app, D, <- run_app. unfold started. cbn [app].
  reflexivity. }
rewrite E. split; [reflexivity|]. split; vm_compute; reflexivity.
Qed.

Lemma get_new (u : side) (p : Page) (j : nat) :
get j (snd (new_WebSocket u p))
  = if (j <? List.length (sockets p))%nat then get j p
    else if (j =? List.length (sockets p))%nat
         then Some (mkWS u CONNECTING None None None None [])
         else None.
Proof.
unfold get, new_WebSocket. simpl.
destruct (Nat.ltb_spec j (List.length (sockets p))) as [L|L].
- apply nth_error_app1. exact L.
- rewrite nth_error_app2 by exact L.
  destruct (Nat.eqb_spec j (List.length (sockets p))) as [->|N].
  + rewrite Nat.sub_diag. reflexivity.
  + destruct (j - List.length (sockets p)) as [|k] eqn:K; [lia|].
    simpl. destruct k; reflexivity.
Qed.

Lemma get_Some_lt (j : nat) (p : Page) (w : WebSocket) :
get j p = Some w -> (j <? List.length (sockets p))%nat = true.
Proof.
intros G. apply Nat.ltb_lt. apply nth_error_Some. unfold get in G.
congruence.
Qed.

Lemma inv_same (p p' : Page) :
sockets p' = sockets p -> localWS p' = localWS p ->
page_inv p -> page_inv p'.
Proof.
intros S L [I1 I2]. unfold page_inv, get in *. rewrite S, L.
split; assumption.
Qed.

Lemma inv_modify (i : nat) (f : WebSocket -> WebSocket) (p : Page) :
page_inv p ->
(forall w, url (f w) = url w) ->
(forall w, get i p = Some w -> url w = ServerSide ->
   state (f w) <> CLOSING) ->
page_inv (modify i f p).
Proof.
intros [I1 I2] U C.
destruct (modify_fields i f p) as (F1 & _).
split.
- intros l L. rewrite F1 in L. destruct (I1 l L) as (w & G & Uw).
  rewrite get_modify. destruct (Nat.eqb_spec i l) as [->|N].
  + rewrite G. exists (f w). split; [reflexivity|]. rewrite U. exact Uw.
  + exists w. split; assumption.
- intros j w G Uw. rewrite get_modify in G.
  destruct (Nat.eqb_spec i j) as [->|N].
  + destruct (get j p) as [w0|] eqn:G0; [|discriminate].
    simpl in G. injection G as <-. rewrite U in Uw.
    apply (C w0 eq_refl Uw).
  + apply (I2 j w G Uw).
Qed.

Lemma inv_new_server (p : Page) :
page_inv p -> page_inv (snd (new_WebSocket ServerSide p)).
Proof.
intros [I1 I2]. split.
- intros l L. change (localWS p = Some l) in L.
  destruct (I1 l L) as (w & G & Uw). exists w. split; [|exact Uw].
  rewrite get_new, (get_Some_lt l p w G). exact G.
- intros j w G Uw. rewrite get_new in G.
  destruct (j <? List.length (sockets p))%nat; [apply (I2 j w G Uw)|].
  destruct (j =? List.length (sockets p))%nat; [|discriminate].
  injection G as <-. discriminate.
Qed.

Lemma inv_connect (p : Page) : page_inv p -> page_inv (connect p).
Proof.
intros [I1 I2]. unfold connect.
change (new_WebSocket LocalSide p)
  with (List.length (sockets p), snd (new_WebSocket LocalSide p)).
set (l := List.length (sockets p)).
set (p1 := snd (new_WebSocket LocalSide p)).
assert (Gl : get l p1 = Some (mkWS LocalSide CONNECTING None None None
                                   None [])).
{ unfold p1, l. rewrite get_new, Nat.ltb_irrefl, Nat.eqb_refl.
  reflexivity. }
apply inv_modify.
- split.
  + intros l' L. simpl in L. injection L as <-.
    eexists. split; [exact Gl | reflexivity].
  + intros j w G Uw.
    change (get j p1 = Some w) in G. unfold p1 in G.
    rewrite get_new in G.
    destruct (j <? List.length (sockets p))%nat; [apply (I2 j w G Uw)|].
    destruct (j =? List.length (sockets p))%nat; [|discriminate].
    injection G as <-. discriminate.
- reflexivity.
- intros w G. change (get l p1 = Some w) in G. rewrite Gl in G.
  injection G as <-. discriminate.
Qed.

Lemma inv_call (h : handler) (d : list byte) (p : Page) :
page_inv p -> page_inv (call h d p).
Proof.
intros I. destruct h; simpl.
- (* L_open *)
  pose proof (inv_new_server _
                (inv_same p (set_localStatus Connected p)
                   eq_refl eq_refl I)) as I1.
  change (new_WebSocket ServerSide (set_localStatus Connected p))
    with (List.length (sockets p),
          snd (new_WebSocket ServerSide (set_localStatus Connected p))).
  cbv iota beta.
  apply inv_modify.
  + apply (inv_same _ _ eq_refl eq_refl I1).
  + reflexivity.
  + intros w G _. simpl. unfold get in G. simpl in G.
    rewrite nth_error_app2 in G by lia. rewrite Nat.sub_diag in G.
    injection G as <-. discriminate.
- (* L_message *)
  destruct (serverWS p) as [s|]; [|exact I].
  destruct (is_open s p) eqn:O; [|exact I].
  apply (inv_same (modify s (send d) p)); try reflexivity.
  apply inv_modify; [exact I | reflexivity |].
  intros w G _. unfold is_open in O. rewrite G in O. simpl.
  destruct (state w); discriminate.
- (* L_error *) apply (inv_same p); [reflexivity .. | exact I].
- (* L_close *) apply (inv_same p); [reflexivity .. | exact I].
- (* S_open *)
  destruct (localWS p) as [l|] eqn:L;
    [|apply (inv_same p); [reflexivity .. | exact I]].
  assert (I1 : page_inv (modify l (set_onmessage L_message)
                           (set_serverStatus Connected p))).
  { apply inv_modify;
      [apply (inv_same p); [reflexivity .. | exact I] | reflexivity |].
    intros w G Uw. simpl. destruct I as [_ I2].
    apply (I2 l w G Uw). }
  destruct (serverWS _) as [s|]; [|exact I1].
  apply inv_modify; [exact I1 | reflexivity |].
  intros w G Uw. simpl. destruct I1 as [_ I2]. apply (I2 s w G Uw).
- (* S_message *)
  destruct (localWS p) as [l|]; [|exact I].
  destruct (is_open l p) eqn:O; [|exact I].
  apply (inv_same (modify l (send d) p)); try reflexivity.
  apply inv_modify; [exact I | reflexivity |].
  intros w G _. unfold is_open in O. rewrite G in O. simpl.
  destruct (state w); discriminate.
- (* S_error *) apply (inv_same p); [reflexivity .. | exact I].
- (* S_close *)
  assert (I0 : page_inv (set_serverStatus Disconnected p))
    by (apply (inv_same p); [reflexivity .. | exact I]).
  destruct (localWS p) as [l|] eqn:L; [|exact I0].
  destruct (is_open l _); [|exact I0].
  apply inv_modify; [exact I0 | reflexivity |].
  intros w G Uw. destruct I as [I1 _].
  destruct (I1 l L) as (w' & G' & U').
  change (get l p = Some w) in G. congruence.
Qed.

Lemma inv_dispatch (e : event) (p : Page) :
page_inv p -> page_inv (dispatch e p).
Proof.
intros I. destruct e as [i | i d | i | i |]; simpl.
- destruct (get i p) as [w|] eqn:G; [|exact I].
  destruct (state w); try exact I.
  assert (I1 : page_inv (modify i (set_state OPEN) p))
    by (apply inv_modify; [exact I | reflexivity | discriminate]).
  destruct (onopen w); [apply inv_call|]; exact I1.
- destruct (get i p) as [w|] eqn:G; [|exact I].
  destruct (state w); try exact I.
  destruct (onmessage w); [apply inv_call|]; exact I.
- destruct (get i p) as [w|] eqn:G; [|exact I].
  destruct (onerror w); [apply inv_call|]; exact I.
- destruct (get i p) as [w|] eqn:G; [|exact I].
  assert (I1 : page_inv (modify i (set_state CLOSED) p))
    by (apply inv_modify; [exact I | reflexivity | discriminate]).
  destruct (state w); try exact I;
    (destruct (onclose w); [apply inv_call|]; exact I1).
- destruct (timers p) as [|n]; [exact I|].
  apply inv_connect. apply (inv_same p); [reflexivity .. | exact I].
Qed.

(** X17. The page never calls [close()] on a socket to the server:
  whatever events arrive, in whatever order, no server socket is ever in
  the state [CLOSING], which only a call of [close()] produces. A
  connection to the server ends only when the server or the network ends
  it; in particular it stays open when the local socket closes and the
  page reconnects. *)
Theorem server_socket_never_closed_by_page
(es : list event) (i : nat) (w : WebSocket) :
get i (run es loaded) = Some w -> url w = ServerSide ->
state w <> CLOSING.
Proof.
assert (G : forall es p, page_inv p -> page_inv (run es p)).
{ clear. induction es as [|e es IH]; intros p I; [exact I|].
  simpl. apply IH. apply inv_dispatch. exact I. }
assert (I0 : page_inv loaded).
{ apply inv_connect. split; [discriminate|].
  intros j w' H. destruct j; discriminate H. }
destruct (G es loaded I0) as [_ I2]. apply I2.
Qed.

Lemma server_socket_never_closed_by_page_witness :
state (mkWS ServerSide OPEN (Some S_open) (Some S_message) (Some S_error)
         (Some S_close) []) <> CLOSING.
Proof.
assert (G : get 1 (run [Opened 0; Opened 1; Closed 0; Timer; Opened 2]
                     loaded)
            = Some (mkWS ServerSide OPEN (Some S_open) (Some S_message)
                      (Some S_error) (Some S_close) []))
  by (vm_compute; reflexivity).
exact (server_socket_never_closed_by_page
         [Opened 0; Opened 1; Closed 0; Timer; Opened 2] 1 _ G eq_refl).
Defined.

(** After the local socket has closed and the page has reconnected, the
  first server socket is still open beside the second one, and a message
  arriving on it is sent on the new local socket. *)
Example two_server_sockets_after_reconnect :
let p := run [Opened 0; Opened 1; Closed 0; Timer; Opened 2; Opened 3]
           loaded in
is_open 1 p = true /\ is_open 3 p = true
/\ localWS p = Some 2%nat /\ serverWS p = Some 3%nat
/\ outbox_of 2 (dispatch (Message 1 ["x"%byte]) p) = [["x"%byte]].
Proof. vm_compute. repeat split. Qed.

End BrowserMore.

(* ===================================================================== *)
(** * Reconnection after a clean disconnect *)
(* ===================================================================== *)

Lemma remove_ws_self (w : Sessions.ws) :
  Sessions.remove_ws w [w] = [].
Proof. unfold Sessions.remove_ws. simpl. rewrite Nat.eqb_refl. reflexivity. Qed.

Lemma clean_cycles_idle (ws : list Sessions.ws) :
  forall cl,
    exists cl',
      Sessions.run (Samples2.clean_cycles ws)
        (Sessions.mkClient None None cl [])
        = Sessions.mkClient None None cl' []
      /\ (forall x, In x cl' -> In x cl \/ In x ws).
Proof.
  induction ws as [|w ws IH]; intros cl.
  - exists cl. split; [reflexivity | auto].
  - unfold Sessions.run, Samples2.clean_cycles in *.
    cbn [flat_map app fold_left Sessions.handle].
    unfold Sessions.attach, Sessions.close_notified.
    cbn [Sessions.wsConn Sessions.closed Sessions.waiting
         Sessions.muxSession].
    rewrite remove_ws_self.
    destruct (IH (w :: cl)) as (cl' & R & I).
    exists cl'. split; [exact R|].
    intros x Hx. destruct (I x Hx) as [[<- | H] | H].
    + right. left. reflexivity.
    + left. exact H.
    + right. right. exact H.
Qed.

(** X18. Reconnection after clean disconnects works. After any number
    of browser connections that each ended (its close notification was
    handled) before the next one was attached, a new attach over a fresh
    websocket makes its session the current one, records its websocket,
    and leaves it as the only session whose handler is waiting, over a
    websocket that has not been closed. *)
Theorem clean_reconnect
  (ws : list Sessions.ws) (w : Sessions.ws) :
  ~ In w ws ->
  let c := Sessions.run (Samples2.clean_cycles ws ++ [Sessions.Attach w true])
             Sessions.New in
  Sessions.muxSession c = Some w
  /\ Sessions.wsConn c = Some w
  /\ Sessions.waiting c = [w]
  /\ Sessions.usable w c = true.
Proof.
  intros N c. subst c.
  destruct (clean_cycles_idle ws []) as (cl' & R & I).
  unfold Sessions.run in *. rewrite fold_left_app.
  unfold Sessions.New. rewrite R. simpl.
  repeat split.
  unfold Sessions.usable. simpl. rewrite Nat.eqb_refl. simpl.
  destruct (existsb (Nat.eqb w) cl') eqn:E; [|reflexivity].
  apply existsb_exists in E as (x & Hx & Ex).
  apply Nat.eqb_eq in Ex. subst x.
  destruct (I w Hx) as [[] | H]. destruct (N H).
Qed.

Lemma clean_reconnect_witness :
  let c := Sessions.run
             (Samples2.clean_cycles [1; 2]%nat ++ [Sessions.Attach 3 true])
             Sessions.New in
  Sessions.muxSession c = Some 3%nat
  /\ Sessions.wsConn c = Some 3%nat
  /\ Sessions.waiting c = [3%nat]
  /\ Sessions.usable 3 c = true.
Proof.
  apply (clean_reconnect [1; 2]%nat 3%nat).
  intros [H | [H | []]]; discriminate H.
Defined.
